(** * DevDocsMCP: the crawler (internal/docs/scraper) and the index wrapper
    (internal/docs/indexer)

    A shallow embedding of [scraper.go] and [indexer.go].

    - The HTML tree of [golang.org/x/net/html] is a rose tree; [extractText]
      and [extractLinks] are the recursive functions of the source.
    - [DownloadDoc] starts three kinds of goroutines: the range loop of
      [DownloadDoc] itself, the anonymous goroutine that sends the seed, waits
      on the [WaitGroup] and closes the channel, and one [fetchAndProcess]
      goroutine per dispatched task.  They are embedded as a small-step
      machine: one program counter per goroutine, the shared [Scraper] fields
      ([visitedURLs], [mu], [wg]) and the buffered channel in the state, and
      a scheduler choice (an [actor]) per step.
    - What the repository takes from libraries ([net/url], [net/http], [os],
      [path/filepath], [x/net/html], [bleve]) is an interface: a class whose
      operations the embedding is parametric in. *)

From Stdlib Require Import ZArith Ascii String List Lia.
From stdpp Require Import base tactics option list gmap strings.

#[local] Set Warnings "-register-all".
Local Open Scope string_scope.
Local Open Scope list_scope.
Local Open Scope Z_scope.

(** ** The HTML tree ([html.Node]) *)

Module html.

Inductive NodeType :=
  | ErrorNode | TextNode | DocumentNode | ElementNode
  | CommentNode | DoctypeNode | RawNode.

#[global] Instance NodeType_eq_dec : EqDecision NodeType.
Proof. solve_decision. Defined.

Record Attribute := { Namespace : string; Key : string; Val : string }.

(** [FirstChild]/[NextSibling] chains are the list of children. *)
Inductive Node :=
  MkNode (Type_ : NodeType) (Data : string) (Attr : list Attribute)
         (Children : list Node).

Definition Type_ (n : Node) : NodeType := let 'MkNode t _ _ _ := n in t.
Definition Data (n : Node) : string := let 'MkNode _ d _ _ := n in d.
Definition Attr (n : Node) : list Attribute := let 'MkNode _ _ a _ := n in a.
Definition Children (n : Node) : list Node := let 'MkNode _ _ _ c := n in c.

End html.
Import html.

(** ** Library interfaces *)

(** [net/url]: [url.Parse] (an error is [None]), the [Host] and [Path] fields,
    [ResolveReference] and [String]. *)
Class NetURL := {
  URL : Type;
  url_Parse : string → option URL;
  url_Host : URL → string;
  url_Path : URL → string;
  url_ResolveReference : URL → URL → URL;
  url_String : URL → string;
}.

(** ** [resolveURL], [extractLinks], [extractText] *)

Section Extractor.
Context `{NetURL}.

(** scraper.go, resolveURL. *)
Definition resolveURL (baseURL relativeURL : string) : string :=
  match url_Parse baseURL with
  | None => ""
  | Some base =>
      match url_Parse relativeURL with
      | None => ""
      | Some rel => url_String (url_ResolveReference base rel)
      end
  end.

(** The two attribute loops of [extractLinks]: [wanted a] is the test on the
    attribute, the resolved value is appended unless it is empty. *)
Fixpoint attr_links (wanted : Attribute → bool) (baseURL : string)
    (attrs : list Attribute) (links : list string) : list string :=
  match attrs with
  | [] => links
  | a :: attrs' =>
      let links' :=
        if wanted a then
          let resolvedURL := resolveURL baseURL (Val a) in
          if String.eqb resolvedURL "" then links else links ++ [resolvedURL]
        else links in
      attr_links wanted baseURL attrs' links'
  end.

(** scraper.go, extractLinks. *)
Fixpoint extractLinks (n : Node) (baseURL : string) : list string :=
  let 'MkNode type data attr children := n in
  let links : list string := [] in
  let links :=
    if bool_decide (type = ElementNode) then
      if String.eqb data "a" then
        attr_links (λ a, String.eqb (Key a) "href") baseURL attr links
      else if String.eqb data "img" || String.eqb data "script"
              || String.eqb data "link" then
        attr_links
          (λ a, (String.eqb data "link" && String.eqb (Key a) "href")
                || (negb (String.eqb data "link") && String.eqb (Key a) "src"))
          baseURL attr links
      else links
    else links in
  (fix siblings (cs : list Node) (links : list string) : list string :=
     match cs with
     | [] => links
     | c :: cs' => siblings cs' (links ++ extractLinks c baseURL)
     end) children links.

End Extractor.

(** scraper.go, extractText: the closure [f] writes to the builder [b]; the
    builder is passed along and returned. *)
Fixpoint extractText_f (n : Node) (b : string) : string :=
  let 'MkNode type data _ children := n in
  let b := if bool_decide (type = TextNode) then b +:+ data else b in
  if bool_decide (type = ElementNode)
     && (String.eqb data "script" || String.eqb data "style")
  then b
  else
    (fix siblings (cs : list Node) (b : string) : string :=
       match cs with
       | [] => b
       | c :: cs' => siblings cs' (extractText_f c b)
       end) children b.

Definition extractText (n : Node) : string := extractText_f n "".

(** ** The [strings] functions of [fetchAndProcess] *)

Definition strings_HasPrefix (s prefix : string) : bool := String.prefix prefix s.

Definition strings_TrimPrefix (s prefix : string) : string :=
  if strings_HasPrefix s prefix
  then substring (String.length prefix) (String.length s - String.length prefix) s
  else s.

Definition strings_HasSuffix (s suffix : string) : bool :=
  (String.length suffix <=? String.length s)%nat
  && String.eqb
       (substring (String.length s - String.length suffix) (String.length suffix) s)
       suffix.

(** [strings.ReplaceAll s old new] where [old] is one character. *)
Fixpoint strings_ReplaceAll (s : string) (old : ascii) (new : string) : string :=
  match s with
  | EmptyString => EmptyString
  | String c s' =>
      if Ascii.eqb c old then new +:+ strings_ReplaceAll s' old new
      else String c (strings_ReplaceAll s' old new)
  end.

(** ** The world of one crawl *)

(** [http.Get] followed by [ioutil.ReadAll] on the body. *)
Inductive GetResult :=
  | GetError
  | ReadError (StatusCode : Z)
  | Response (StatusCode : Z) (body : string).

Definition http_StatusOK : Z := 200.

(** [net/http], [os], [io/ioutil], [path/filepath] and [html.Parse], as
    the functions of their arguments that one crawl sees.  [os_MkdirAll] and
    [ioutil_WriteFile] answer whether the call returned an error. *)
Class World `{NetURL} := {
  http_Get : string → GetResult;
  html_Parse : string → option Node;
  os_MkdirAll : string → bool;
  ioutil_WriteFile : string → string → bool;
  filepath_Ext : string → string;
  filepath_Join : list string → string;
  filepath_Dir : string → string;
}.

(** scraper.go, type Doc. *)
Record Doc := { Name : string; Version : string; DocURL : string }.

(** An element of the channel: [struct { url string; depth int }]. *)
Record task := { url : string; depth : Z }.

(** Go's [int] addition (64 bits, two's complement). *)
Definition int_add (a b : Z) : Z := (a + b + 2 ^ 63) mod 2 ^ 64 - 2 ^ 63.

(** The capacity of [queue]: [make(chan ..., 100)]. *)
Definition queue_cap : nat := 100.

(** What is fixed during one call of [DownloadDoc]. *)
Record crawl := {
  DownloadPath : string;
  doc : Doc;
  maxDepth : Z;
  initialHost : string;
}.

(** *** Program counters *)

(** The range loop of [DownloadDoc] (lines 70-88). *)
Inductive main_pc :=
  | MRange                    (* for current := range queue *)
  | MLock (current : task)    (* s.mu.Lock() *)
  | MTest (current : task)    (* if s.visitedURLs[current.url] *)
  | MSkipUnlock               (*   s.mu.Unlock() *)
  | MSkipDone                 (*   s.wg.Done(); continue *)
  | MClaim (current : task)   (* s.visitedURLs[current.url] = true *)
  | MUnlock (current : task)  (* s.mu.Unlock() *)
  | MDepth (current : task)   (* if current.depth > maxDepth { s.wg.Done() }
                                 else go s.fetchAndProcess(...) *)
  | MReturn.                  (* return nil *)

(** The anonymous goroutine (lines 59-68). *)
Inductive feeder_pc :=
  | FSend    (* queue <- {doc.URL, 0} *)
  | FWait    (* s.wg.Wait() *)
  | FClose   (* close(queue) *)
  | FExit.

(** One [fetchAndProcess] goroutine (lines 91-183). *)
Inductive worker_pc :=
  | WFetch                                (* lines 94-161 *)
  | WLoop (links : list string)           (* for _, link := range links; parse,
                                             host test, s.mu.Lock() *)
  | WTest (link : string) (rest : list string)  (* if !s.visitedURLs[link] *)
  | WAdd (link : string) (rest : list string)   (*   s.wg.Add(1) *)
  | WSend (link : string) (rest : list string)  (*   queue <- {link, depth+1} *)
  | WUnlock (rest : list string)                (* s.mu.Unlock() *)
  | WDefer                                      (* deferred s.wg.Done() *)
  | WExit.

Record worker := { currentURL : string; currentDepth : Z; w_pc : worker_pc }.

(** What a crawl does to the outside. *)
Inductive event :=
  | EvGet (u : string) (d : Z)            (* http.Get(currentURL) at depth d *)
  | EvSaved (filePath body : string)      (* ioutil.WriteFile succeeded *)
  | EvIndexed (filePath plainText : string). (* s.Indexer.AddDocument *)

Inductive actor := Main | Feeder | Worker (i : nat).

(** *** The state *)

Record state := {
  visitedURLs : gmap string bool;   (* s.visitedURLs *)
  mu : bool;                        (* s.mu: locked? *)
  wg : nat;                         (* the counter of s.wg *)
  queue : list task;                (* the buffer of the channel *)
  closed : bool;                    (* close(queue) happened *)
  main : main_pc;
  feeder : feeder_pc;
  workers : list worker;
  log : list event;
  panicked : bool;                  (* a goroutine panicked *)
}.

(** [m[k]] on a [map[string]bool]: a missing key reads as [false]. *)
Definition visited (s : state) (u : string) : bool :=
  default false (visitedURLs s !! u).

Definition with_visited (v : gmap string bool) (s : state) : state :=
  {| visitedURLs := v; mu := mu s; wg := wg s; queue := queue s;
     closed := closed s; main := main s; feeder := feeder s;
     workers := workers s; log := log s; panicked := panicked s |}.
Definition with_mu (b : bool) (s : state) : state :=
  {| visitedURLs := visitedURLs s; mu := b; wg := wg s; queue := queue s;
     closed := closed s; main := main s; feeder := feeder s;
     workers := workers s; log := log s; panicked := panicked s |}.
Definition with_wg (n : nat) (s : state) : state :=
  {| visitedURLs := visitedURLs s; mu := mu s; wg := n; queue := queue s;
     closed := closed s; main := main s; feeder := feeder s;
     workers := workers s; log := log s; panicked := panicked s |}.
Definition with_queue (q : list task) (s : state) : state :=
  {| visitedURLs := visitedURLs s; mu := mu s; wg := wg s; queue := q;
     closed := closed s; main := main s; feeder := feeder s;
     workers := workers s; log := log s; panicked := panicked s |}.
Definition with_closed (b : bool) (s : state) : state :=
  {| visitedURLs := visitedURLs s; mu := mu s; wg := wg s; queue := queue s;
     closed := b; main := main s; feeder := feeder s;
     workers := workers s; log := log s; panicked := panicked s |}.
Definition with_main (m : main_pc) (s : state) : state :=
  {| visitedURLs := visitedURLs s; mu := mu s; wg := wg s; queue := queue s;
     closed := closed s; main := m; feeder := feeder s;
     workers := workers s; log := log s; panicked := panicked s |}.
Definition with_feeder (f : feeder_pc) (s : state) : state :=
  {| visitedURLs := visitedURLs s; mu := mu s; wg := wg s; queue := queue s;
     closed := closed s; main := main s; feeder := f;
     workers := workers s; log := log s; panicked := panicked s |}.
Definition with_workers (ws : list worker) (s : state) : state :=
  {| visitedURLs := visitedURLs s; mu := mu s; wg := wg s; queue := queue s;
     closed := closed s; main := main s; feeder := feeder s;
     workers := ws; log := log s; panicked := panicked s |}.
Definition with_log (l : list event) (s : state) : state :=
  {| visitedURLs := visitedURLs s; mu := mu s; wg := wg s; queue := queue s;
     closed := closed s; main := main s; feeder := feeder s;
     workers := workers s; log := l; panicked := panicked s |}.
Definition panic (s : state) : state :=
  {| visitedURLs := visitedURLs s; mu := mu s; wg := wg s; queue := queue s;
     closed := closed s; main := main s; feeder := feeder s;
     workers := workers s; log := log s; panicked := true |}.

(** *** [sync] and channel operations *)

(** [s.mu.Unlock()]: unlocking an unlocked mutex is a fatal error. *)
Definition mu_Unlock (s : state) : state :=
  if mu s then with_mu false s else panic s.

(** [s.wg.Done()]: a negative counter panics. *)
Definition wg_Done (s : state) : state :=
  match wg s with
  | O => panic s
  | S n => with_wg n s
  end.

(** [queue <- t]: panics on a closed channel, blocks ([None]) while the
    buffer is full. *)
Definition chan_send (t : task) (s : state) : option state :=
  if closed s then Some (panic s)
  else if (length (queue s) <? queue_cap)%nat
       then Some (with_queue (queue s ++ [t]) s)
       else None.

(** ** [fetchAndProcess] and [DownloadDoc] as a machine *)

Section Machine.
Context `{World}.
Variable c : crawl.

(** Lines 120-132: the local file of a page. *)
Definition local_file (parsedURL : URL) : string :=
  let relativePath := url_Host parsedURL +:+ url_Path parsedURL in
  let relativePath := strings_TrimPrefix relativePath (initialHost c) in
  let relativePath := strings_TrimPrefix relativePath "/" in
  let relativePath := strings_ReplaceAll relativePath ":" "_" in
  let relativePath :=
    if strings_HasSuffix relativePath "/" || String.eqb relativePath ""
    then relativePath +:+ "index.html"
    else if String.eqb (filepath_Ext relativePath) ""
         then relativePath +:+ ".html"
         else relativePath in
  filepath_Join [DownloadPath c; Name (doc c); Version (doc c); relativePath].

(** Lines 94-161, up to the loop over the links: the events of the page and
    where the goroutine goes next, [WDefer] on every [return].  The error
    [s.Indexer.AddDocument] returns is dropped by the source; [s.Indexer] is
    taken to be non-nil. *)
Definition fetch_page (currentURL : string) (currentDepth : Z)
    : list event * worker_pc :=
  let evs := [EvGet currentURL currentDepth] in
  match http_Get currentURL with
  | GetError => (evs, WDefer)
  | ReadError _ => (evs, WDefer)
  | Response StatusCode body =>
      if negb (StatusCode =? http_StatusOK) then (evs, WDefer) else
      match url_Parse currentURL with
      | None => (evs, WDefer)
      | Some parsedURL =>
          let filePath := local_file parsedURL in
          let dir := filepath_Dir filePath in
          if os_MkdirAll dir then (evs, WDefer) else
          if ioutil_WriteFile filePath body then (evs, WDefer) else
          let evs := evs ++ [EvSaved filePath body] in
          match html_Parse body with
          | None => (evs, WDefer)
          | Some htmlDoc =>
              let plainText := extractText htmlDoc in
              let evs := evs ++ [EvIndexed filePath plainText] in
              let links := extractLinks htmlDoc currentURL in
              (evs, WLoop links)
          end
      end
  end.

(** The range loop of [DownloadDoc]. *)
Definition step_main (s : state) : option state :=
  match main s with
  | MRange =>
      match queue s with
      | current :: q => Some (with_main (MLock current) (with_queue q s))
      | [] => if closed s then Some (with_main MReturn s) else None
      end
  | MLock current =>
      if mu s then None else Some (with_main (MTest current) (with_mu true s))
  | MTest current =>
      if visited s (url current)
      then Some (with_main MSkipUnlock s)
      else Some (with_main (MClaim current) s)
  | MSkipUnlock => Some (with_main MSkipDone (mu_Unlock s))
  | MSkipDone => Some (with_main MRange (wg_Done s))
  | MClaim current =>
      Some (with_main (MUnlock current)
              (with_visited (<[url current := true]> (visitedURLs s)) s))
  | MUnlock current => Some (with_main (MDepth current) (mu_Unlock s))
  | MDepth current =>
      if maxDepth c <? depth current
      then Some (with_main MRange (wg_Done s))
      else Some (with_main MRange
                   (with_workers
                      (workers s ++ [{| currentURL := url current;
                                        currentDepth := depth current;
                                        w_pc := WFetch |}]) s))
  | MReturn => None
  end.

(** The goroutine of lines 59-68. *)
Definition step_feeder (s : state) : option state :=
  match feeder s with
  | FSend =>
      with_feeder FWait <$> chan_send {| url := DocURL (doc c); depth := 0 |} s
  | FWait =>
      match wg s with
      | O => Some (with_feeder FClose s)
      | S _ => None
      end
  | FClose =>
      if closed s then Some (panic s)
      else Some (with_feeder FExit (with_closed true s))
  | FExit => None
  end.

Definition set_pc (i : nat) (w : worker) (pc : worker_pc) (s : state) : state :=
  with_workers
    (<[i := {| currentURL := currentURL w; currentDepth := currentDepth w;
               w_pc := pc |}]> (workers s)) s.

(** The [i]-th [fetchAndProcess] goroutine. *)
Definition step_worker (i : nat) (s : state) : option state :=
  match workers s !! i with
  | None => None
  | Some w =>
      match w_pc w with
      | WFetch =>
          let '(evs, pc) := fetch_page (currentURL w) (currentDepth w) in
          Some (set_pc i w pc (with_log (log s ++ evs) s))
      | WLoop [] => Some (set_pc i w WDefer s)
      | WLoop (link :: rest) =>
          match url_Parse link with
          | None => Some (set_pc i w (WLoop rest) s)
          | Some parsedLink =>
              if String.eqb (url_Host parsedLink) (initialHost c) then
                if mu s then None
                else Some (set_pc i w (WTest link rest) (with_mu true s))
              else Some (set_pc i w (WLoop rest) s)
          end
      | WTest link rest =>
          if negb (visited s link)
          then Some (set_pc i w (WAdd link rest) s)
          else Some (set_pc i w (WUnlock rest) s)
      | WAdd link rest =>
          Some (set_pc i w (WSend link rest) (with_wg (S (wg s)) s))
      | WSend link rest =>
          set_pc i w (WUnlock rest)
            <$> chan_send {| url := link;
                             depth := int_add (currentDepth w) 1 |} s
      | WUnlock rest => Some (set_pc i w (WLoop rest) (mu_Unlock s))
      | WDefer => Some (set_pc i w WExit (wg_Done s))
      | WExit => None
      end
  end.

(** One step of the goroutine the scheduler picks; [None] when it is blocked
    or has finished.  After a panic nothing runs. *)
Definition step (a : actor) (s : state) : option state :=
  if panicked s then None
  else match a with
       | Main => step_main s
       | Feeder => step_feeder s
       | Worker i => step_worker i s
       end.

(** A schedule is the list of goroutines picked; picking a goroutine that
    cannot move leaves the state as it is. *)
Fixpoint run (sched : list actor) (s : state) : state :=
  match sched with
  | [] => s
  | a :: sched' => run sched' (default s (step a s))
  end.

(** The state after lines 53-68: [s.wg.Add(1)] is done, the channel is empty,
    nothing is locked.  [visitedURLs] is the map the [Scraper] holds when
    [DownloadDoc] is called (empty after [NewScraper]). *)
Definition init (visitedURLs0 : gmap string bool) : state :=
  {| visitedURLs := visitedURLs0; mu := false; wg := 1; queue := [];
     closed := false; main := MRange; feeder := FSend; workers := [];
     log := []; panicked := false |}.

End Machine.

(** The result of [DownloadDoc] as far as a schedule takes it. *)
Inductive outcome :=
  | Returned (err : option string)   (* the error value returned *)
  | Crashed                          (* a panic *)
  | Running (s : state).             (* not returned yet *)

(** scraper.go, DownloadDoc: the URL is parsed first (lines 47-51), the
    machine runs from [init] with [initialHost := initialURL.Host]. *)
Definition DownloadDoc `{World} (downloadPath : string)
    (visitedURLs0 : gmap string bool) (d : Doc) (maxDepth : Z)
    (sched : list actor) : outcome :=
  match url_Parse (DocURL d) with
  | None => Returned (Some "invalid initial URL")
  | Some initialURL =>
      let c := {| DownloadPath := downloadPath; doc := d;
                  maxDepth := maxDepth;
                  initialHost := url_Host initialURL |} in
      let s := run c sched (init visitedURLs0) in
      if panicked s then Crashed
      else match main s with
           | MReturn => Returned None
           | _ => Running s
           end
  end.

(** ** Accounting of the [WaitGroup] and of the mutex *)

(** What each goroutine has added to [s.wg] and not yet given back. *)
Definition main_holds (pc : main_pc) : nat :=
  match pc with MRange | MReturn => 0 | _ => 1 end.
Definition feeder_holds (pc : feeder_pc) : nat :=
  match pc with FSend => 1 | _ => 0 end.
Definition worker_holds (w : worker) : nat :=
  match w_pc w with WExit => 0 | WSend _ _ => 2 | _ => 1 end.

(** Tasks in flight: the seed not yet sent, the buffered tasks, the task the
    range loop holds, the live [fetchAndProcess] goroutines, and the tasks
    counted by [wg.Add] that are about to be sent. *)
Definition outstanding (s : state) : nat :=
  feeder_holds (feeder s) + length (queue s) + main_holds (main s)
  + sum_list_with worker_holds (workers s).

(** Who is between [s.mu.Lock()] and [s.mu.Unlock()]. *)
Definition main_locks (pc : main_pc) : nat :=
  match pc with
  | MTest _ | MSkipUnlock | MClaim _ | MUnlock _ => 1
  | _ => 0
  end.
Definition worker_locks (w : worker) : nat :=
  match w_pc w with
  | WTest _ _ | WAdd _ _ | WSend _ _ | WUnlock _ => 1
  | _ => 0
  end.
Definition lock_holders (s : state) : nat :=
  main_locks (main s) + sum_list_with worker_locks (workers s).

Record sync_inv (s : state) : Prop := {
  inv_no_panic : panicked s = false;
  inv_wg : wg s = outstanding s;
  inv_mu : (if mu s then 1 else 0)%nat = lock_holders s;
  inv_waited : feeder s = FClose ∨ feeder s = FExit → wg s = 0%nat;
  inv_closed : closed s = true ↔ feeder s = FExit;
}.

(** ** What the crawl keeps true *)

(** The URLs fetched, with the depth of the fetch, oldest first. *)
Definition fetched (l : list event) : list (string * Z) :=
  omap (λ e, match e with EvGet u d => Some (u, d) | _ => None end) l.

(** The task the range loop has taken from the channel. *)
Definition main_task (pc : main_pc) : option task :=
  match pc with
  | MLock t | MTest t | MClaim t | MUnlock t | MDepth t => Some t
  | _ => None
  end.

(** The link a [fetchAndProcess] goroutine is about to enqueue. *)
Definition pending_link (pc : worker_pc) : option string :=
  match pc with
  | WTest link _ | WAdd link _ | WSend link _ => Some link
  | _ => None
  end.

Section Invariants.
Context `{World}.
Variable c : crawl.

(** [url.Parse(u)] succeeds and its [Host] is [initialHost]. *)
Definition in_domain (u : string) : Prop :=
  ∃ p, url_Parse u = Some p ∧ url_Host p = initialHost c.

(** What [DownloadDoc] establishes before the loop (lines 47-51). *)
Definition seed_parsed : Prop :=
  ∃ initialURL, url_Parse (DocURL (doc c)) = Some initialURL
                ∧ initialHost c = url_Host initialURL.

(** Every URL in the channel, in the hands of the range loop or of a
    [fetchAndProcess] goroutine, or fetched, is on the initial host. *)
Record host_inv (s : state) : Prop := {
  host_seed : in_domain (DocURL (doc c));
  host_queue : Forall (λ t, in_domain (url t)) (queue s);
  host_main : ∀ t, main_task (main s) = Some t → in_domain (url t);
  host_workers :
    Forall (λ w, in_domain (currentURL w)
                 ∧ ∀ link, pending_link (w_pc w) = Some link → in_domain link)
           (workers s);
  host_fetched : Forall (λ f, in_domain f.1) (fetched (log s));
}.

(** Every [fetchAndProcess] goroutine runs at a depth within [maxDepth]. *)
Record depth_inv (s : state) : Prop := {
  depth_workers : Forall (λ w, currentDepth w ≤ maxDepth c) (workers s);
  depth_fetched : Forall (λ f, f.2 ≤ maxDepth c) (fetched (log s));
}.

(** One [fetchAndProcess] goroutine per URL, started after the URL was
    marked in [visitedURLs], and one [http.Get] per goroutine. *)
Record once_inv (s : state) : Prop := {
  once_visited : Forall (λ w, visited s (currentURL w) = true) (workers s);
  once_workers : NoDup (currentURL <$> workers s);
  once_claim : ∀ t, main s = MClaim t → visited s (url t) = false;
  once_claimed : ∀ t, main s = MUnlock t ∨ main s = MDepth t →
      visited s (url t) = true ∧ url t ∉ currentURL <$> workers s;
  once_fetched : ∀ u, u ∈ (fetched (log s)).*1 →
      ∃ i w, workers s !! i = Some w ∧ currentURL w = u ∧ w_pc w ≠ WFetch;
  once_log : NoDup (fetched (log s)).*1;
}.

End Invariants.

(** ** A small network for the examples

    The examples below need an instance of [NetURL] and [World].  [testnet]
    is a stand-in that agrees with [net/url], [path/filepath] and
    [html.Parse] on the inputs the examples use: absolute URLs of the form
    [scheme://host/path#fragment], references that start with [/], and
    pages given with their parse tree. *)

Module testnet.

Record parsed := { Scheme : string; Host : string; Path : string; Fragment : string }.

(** [cut sep s]: the part of [s] before the first [sep], and the part after
    it when [sep] occurs. *)
Definition cut (sep s : string) : string * option string :=
  match index 0 sep s with
  | Some k =>
      (substring 0 k s,
       Some (substring (k + String.length sep)
                       (String.length s - k - String.length sep) s))
  | None => (s, None)
  end.

(** A first character [:] is "missing protocol scheme". *)
Definition Parse (s : string) : option parsed :=
  if String.prefix ":" s then None
  else
    let '(s, frag) := cut "#" s in
    match cut "://" s with
    | (sch, Some rest) =>
        match index 0 "/" rest with
        | Some k =>
            Some {| Scheme := sch; Host := substring 0 k rest;
                    Path := substring k (String.length rest - k) rest;
                    Fragment := default "" frag |}
        | None =>
            Some {| Scheme := sch; Host := rest; Path := "";
                    Fragment := default "" frag |}
        end
    | (_, None) =>
        Some {| Scheme := ""; Host := ""; Path := s;
                Fragment := default "" frag |}
    end.

Fixpoint last_index_from (ch : ascii) (s : string) (i : nat) (acc : option nat)
    : option nat :=
  match s with
  | EmptyString => acc
  | String a s' =>
      last_index_from ch s' (S i) (if Ascii.eqb a ch then Some i else acc)
  end.
Definition last_index (ch : ascii) (s : string) : option nat :=
  last_index_from ch s 0 None.

(** The path up to and including its last [/]. *)
Definition dir_slash (p : string) : string :=
  match last_index "/" p with
  | Some k => substring 0 (S k) p
  | None => ""
  end.

Definition ResolveReference (base rel : parsed) : parsed :=
  if negb (String.eqb (Scheme rel) "") then rel
  else if String.eqb (Path rel) "" then
    {| Scheme := Scheme base; Host := Host base; Path := Path base;
       Fragment := Fragment rel |}
  else if String.prefix "/" (Path rel) then
    {| Scheme := Scheme base; Host := Host base; Path := Path rel;
       Fragment := Fragment rel |}
  else
    {| Scheme := Scheme base; Host := Host base;
       Path := dir_slash (Path base) +:+ Path rel;
       Fragment := Fragment rel |}.

Definition String_ (u : parsed) : string :=
  (if String.eqb (Scheme u) "" then "" else Scheme u +:+ "://")
  +:+ Host u +:+ Path u
  +:+ (if String.eqb (Fragment u) "" then "" else "#" +:+ Fragment u).

#[global] Instance net_url : NetURL :=
  {| URL := parsed; url_Parse := Parse; url_Host := Host; url_Path := Path;
     url_ResolveReference := ResolveReference; url_String := String_ |}.

(** [filepath.Ext]: from the last [.] of the last element. *)
Definition Ext (p : string) : string :=
  match last_index "." p with
  | Some i =>
      match last_index "/" p with
      | Some j => if (j <? i)%nat then substring i (String.length p - i) p else ""
      | None => substring i (String.length p - i) p
      end
  | None => ""
  end.

(** [filepath.Join] on elements that need no cleaning. *)
Fixpoint Join (elems : list string) : string :=
  match elems with
  | [] => ""
  | [e] => e
  | e :: es => if String.eqb e "" then Join es else e +:+ "/" +:+ Join es
  end.

(** [filepath.Dir]: all but the last element. *)
Definition Dir (p : string) : string :=
  match last_index "/" p with
  | Some O => "/"
  | Some k => substring 0 k p
  | None => "."
  end.

(** A site: what each URL answers, how each body parses, and which
    directories and files cannot be written. *)
Record site := {
  get : string → GetResult;
  parse : string → option Node;
  mkdir_fails : string → bool;
  write_fails : string → bool;
}.

Definition world (t : site) : World :=
  {| http_Get := get t; html_Parse := parse t;
     os_MkdirAll := mkdir_fails t;
     ioutil_WriteFile := λ filePath _, write_fails t filePath;
     filepath_Ext := Ext; filepath_Join := Join; filepath_Dir := Dir |}.

(** [<html><head></head><body>] children [</body></html>], as [html.Parse]
    builds it. *)
Definition document (children : list Node) : Node :=
  MkNode DocumentNode "" []
    [MkNode ElementNode "html" []
       [MkNode ElementNode "head" [] [];
        MkNode ElementNode "body" [] children]].

Definition text (data : string) : Node := MkNode TextNode data [] [].

(** [<a href="href">label</a>]. *)
Definition anchor (href label : string) : Node :=
  MkNode ElementNode "a" [{| Namespace := ""; Key := "href"; Val := href |}]
    [text label].

End testnet.

(** *** Pages and sites of the examples *)

Module examples.
Import testnet.

Record page := {
  page_url : string;
  page_body : string;
  page_tree : Node;
}.

(** A page whose body is a list of [<a href='...'>label</a>]. *)
Definition anchors_body (hrefs : list (string * string)) : string :=
  "<html><head></head><body>"
  +:+ foldr (λ '(href, label) rest,
               "<a href='" +:+ href +:+ "'>" +:+ label +:+ "</a>" +:+ rest)
            "" hrefs
  +:+ "</body></html>".

Definition anchors_page (u : string) (hrefs : list (string * string)) : page :=
  {| page_url := u; page_body := anchors_body hrefs;
     page_tree := document ((λ '(href, label), anchor href label) <$> hrefs) |}.

(** Every listed page answers 200 with its body, anything else 404. *)
Definition serve (pages : list page) : site :=
  {| get := λ u,
       match List.find (λ p, String.eqb (page_url p) u) pages with
       | Some p => Response 200 (page_body p)
       | None => Response 404 "404 page not found"
       end;
     parse := λ b,
       match List.find (λ p, String.eqb (page_body p) b) pages with
       | Some p => Some (page_tree p)
       | None => Some (document [text b])
       end;
     mkdir_fails := λ _, false;
     write_fails := λ _, false |}.

(** The scenario of the specification: [/] links to [/a] on the same host
    and to another host. *)
Definition two_hosts : site :=
  serve [anchors_page "http://example.test/"
           [("/a", "A"); ("http://other.test/", "other")];
         anchors_page "http://example.test/a" []].

(** [/] links to [/a] and to [/a#x], the same page. *)
Definition same_page_twice : site :=
  serve [anchors_page "http://example.test/" [("/a", "A"); ("/a#x", "A, x")];
         anchors_page "http://example.test/a" [];
         anchors_page "http://example.test/a#x" []].

(** As [two_hosts], but nothing can be written under the download path. *)
Definition read_only_disk : site :=
  {| get := get two_hosts; parse := parse two_hosts;
     mkdir_fails := λ _, false; write_fails := λ _, true |}.
Definition no_directory : site :=
  {| get := get two_hosts; parse := parse two_hosts;
     mkdir_fails := λ _, true; write_fails := λ _, false |}.

(** [/] links to [/p], [/pp], ..., [n] pages in all. *)
Definition many_links (n : nat) : list (string * string) :=
  (λ k, ("/" +:+ string_of_list_ascii (replicate (S k) "p"%char), "p")) <$> seq 0 n.
Definition wide (n : nat) : site :=
  serve [anchors_page "http://example.test/" (many_links n)].

Definition example_doc : Doc :=
  {| Name := "example"; Version := "1"; DocURL := "http://example.test/" |}.

(** What [DownloadDoc] fixes for [example_doc]: the host of its URL. *)
Definition example_crawl (maxDepth : Z) : crawl :=
  {| DownloadPath := "/docs"; doc := example_doc; maxDepth := maxDepth;
     initialHost := "example.test" |}.

(** The seed is dispatched, its page is processed to the end, and the range
    loop has taken the next task from the channel. *)
Definition first_page_done : list actor :=
  Feeder :: replicate 6 Main ++ replicate 9 (Worker 0) ++ [Main].

(** [rounds] turns of the range loop, the seeding goroutine and the first
    [n] [fetchAndProcess] goroutines, in this order. *)
Definition round_robin (rounds n : nat) : list actor :=
  mjoin (replicate rounds (Feeder :: Main :: (Worker <$> seq 0 n))).

(** The range loop is not scheduled between its first receive and its
    [s.mu.Lock()] while the first [fetchAndProcess] goroutine enqueues. *)
Definition eager_worker : list actor :=
  Feeder :: replicate 6 Main                 (* the seed is dispatched *)
  ++ replicate 6 (Worker 0)                  (* fetch, first link sent *)
  ++ [Main]                                  (* the first link is received *)
  ++ replicate 500 (Worker 0)                (* 100 more links are sent *)
  ++ replicate 3 (Worker 0).                 (* Lock, test, wg.Add; then send *)

(** The state [eager_worker] ends in, on the page with 102 links. *)
Definition eager_worker_end : state :=
  Eval vm_compute in
    @run net_url (world (wide 102)) (example_crawl 1) eager_worker (init ∅).

End examples.

(** ** The text and the links of a page, as the specification words them *)

(** Elements whose content is not rendered. *)
Definition non_rendering (n : Node) : bool :=
  bool_decide (Type_ n = ElementNode)
  && (String.eqb (Data n) "script" || String.eqb (Data n) "style").

(** The nodes of a tree in document order, each with [true] when it lies
    beneath a non-rendering element. *)
Fixpoint document_order (hidden : bool) (n : Node) : list (bool * Node) :=
  let 'MkNode _ _ _ children := n in
  (hidden, n)
  :: flat_map (document_order (hidden || non_rendering n)) children.

Definition visible_text_node (hn : bool * Node) : bool :=
  negb hn.1 && bool_decide (Type_ hn.2 = TextNode).

(** The concatenation of the visible text nodes, in document order. *)
Definition visible_text (n : Node) : string :=
  foldr String.append ""
    ((λ hn, Data hn.2)
       <$> List.filter visible_text_node (document_order false n)).

(** The nodes of a tree, in document order. *)
Fixpoint nodes (n : Node) : list Node :=
  let 'MkNode _ _ _ children := n in n :: flat_map nodes children.

(** Hyperlink targets and embedded-resource references. *)
Definition link_attribute (n : Node) (a : Attribute) : Prop :=
  Type_ n = ElementNode
  ∧ ((Data n = "a" ∧ Key a = "href")
     ∨ (Data n = "link" ∧ Key a = "href")
     ∨ ((Data n = "img" ∨ Data n = "script") ∧ Key a = "src")).

Section OwnLinks.
Context `{NetURL}.

(** The links of the attributes of the node itself. *)
Definition own_links (n : Node) (baseURL : string) : list string :=
  if bool_decide (Type_ n = ElementNode) then
    if String.eqb (Data n) "a" then
      attr_links (λ a, String.eqb (Key a) "href") baseURL (Attr n) []
    else if String.eqb (Data n) "img" || String.eqb (Data n) "script"
            || String.eqb (Data n) "link" then
      attr_links
        (λ a, (String.eqb (Data n) "link" && String.eqb (Key a) "href")
              || (negb (String.eqb (Data n) "link")
                  && String.eqb (Key a) "src"))
        baseURL (Attr n) []
    else []
  else [].

End OwnLinks.

(** ** Running to completion *)

Section Completion.
Context `{World}.
Variable c : crawl.

(** No goroutine can move. *)
Definition blocked (s : state) : Prop := ∀ a, step c a s = None.

End Completion.



(** ** indexer.go *)

Module indexer.

(** [bleve.SearchRequest], the fields that decide which hits come back. *)
Record SearchRequest (Q : Type) := { Query : Q; Size : nat; From : nat }.
Arguments Query {Q}.
Arguments Size {Q}.
Arguments From {Q}.

(** [search.DocumentMatch] and [bleve.SearchResult]. *)
Record DocumentMatch := { ID : string }.
Record SearchResult := { Hits : list DocumentMatch }.

(** The [bleve] index behind [Indexer.index].  [matching idx q] lists the
    identifiers of the documents of [idx] that match [q], best first.  An
    error is [None]. *)
Class Bleve := {
  bleve_Index : Type;
  bleve_Query : Type;
  bleve_NewQueryStringQuery : string → bleve_Query;
  bleve_NewFuzzyQuery : string → bleve_Query;
  index_Index : bleve_Index → string → string * string → option bleve_Index;
  index_Search : bleve_Index → SearchRequest bleve_Query → option SearchResult;
  matching : bleve_Index → bleve_Query → list string;
}.

(** What [bleve] documents of [Index.Search]: the hits are the page of the
    matching documents the request asks for, [Size] of them after skipping
    [From]. *)
Definition paged_search `{Bleve} : Prop :=
  ∀ idx req res,
    index_Search idx req = Some res →
    ID <$> Hits res
    = take (Size req) (drop (From req) (matching idx (Query req))).

(** [bleve.NewSearchRequest(q)] is [NewSearchRequestOptions(q, 10, 0, false)]:
    the first ten hits. *)
Definition bleve_NewSearchRequest {Q} (q : Q) : SearchRequest Q :=
  {| Query := q; Size := 10; From := 0 |}.

Section Indexer.
Context `{Bleve}.

(** indexer.go, AddDocument: the document is indexed under its path. *)
Definition AddDocument (i : bleve_Index) (filePath content : string)
    : bleve_Index + string :=
  let data := (filePath, content) in
  match index_Index i filePath data with
  | None => inr "failed to index document"
  | Some i' => inl i'
  end.

(** The loop over [searchResult.Hits] of [Search] and [SearchFuzzy]. *)
Definition hit_paths (hits : list DocumentMatch) : list string :=
  foldl (λ matchingPaths hit, matchingPaths ++ [ID hit]) [] hits.

(** indexer.go, Search. *)
Definition Search (i : bleve_Index) (query : string) : list string + string :=
  let queryRequest := bleve_NewSearchRequest (bleve_NewQueryStringQuery query) in
  match index_Search i queryRequest with
  | None => inr "failed to search index"
  | Some searchResult => inl (hit_paths (Hits searchResult))
  end.

(** indexer.go, SearchFuzzy. *)
Definition SearchFuzzy (i : bleve_Index) (query : string) : list string + string :=
  let queryRequest := bleve_NewSearchRequest (bleve_NewFuzzyQuery query) in
  match index_Search i queryRequest with
  | None => inr "failed to fuzzy search index"
  | Some searchResult => inl (hit_paths (Hits searchResult))
  end.

End Indexer.

(** *** An index for the examples

    Documents in the order of insertion, a later document replacing an
    earlier one of the same path; a document matches a query string that
    occurs in its content; hits come in the order of insertion. *)

Definition contains (content q : string) : bool :=
  bool_decide (is_Some (index 0 q content)).

Definition list_Index (idx : list (string * string)) (id : string)
    (data : string * string) : list (string * string) :=
  List.filter (λ d, negb (String.eqb d.1 id)) idx ++ [(id, data.2)].

Definition list_matching (idx : list (string * string)) (q : string)
    : list string :=
  fst <$> List.filter (λ d, contains d.2 q) idx.

Definition list_Search (idx : list (string * string))
    (req : SearchRequest string) : option SearchResult :=
  Some {| Hits := (λ id, {| ID := id |})
                    <$> take (Size req) (drop (From req)
                                           (list_matching idx (Query req))) |}.

Definition list_bleve : Bleve :=
  {| bleve_Index := list (string * string); bleve_Query := string;
     bleve_NewQueryStringQuery := id; bleve_NewFuzzyQuery := id;
     index_Index := λ idx id data, Some (list_Index idx id data);
     index_Search := list_Search; matching := list_matching |}.

(** Eleven pages that all contain the word [fox]. *)
Definition eleven_foxes : list (string * string) :=
  (λ k, ("docs/" +:+ string_of_list_ascii (replicate (S k) "p"%char) +:+ ".html",
         "The quick brown fox")) <$> seq 0 11.

Definition index_of (docs : list (string * string)) : list (string * string) :=
  foldl (λ idx d, list_Index idx d.1 d) [] docs.

End indexer.

(** ** More that the crawl keeps true *)

(** The goroutine has returned. *)
Definition exited (w : worker) : Prop := w_pc w = WExit.

Section MoreInvariants.
Context `{World}.
Variable c : crawl.

(** [return nil] is reached through the closed channel only. *)
Definition return_inv (s : state) : Prop := main s = MReturn → closed s = true.

(** Depths start at 0 and grow by one per link followed. *)
Record range_inv (s : state) : Prop := {
  range_queue :
    Forall (λ t, 0 ≤ depth t ≤ Z.max 0 (maxDepth c + 1)) (queue s);
  range_main :
    ∀ t, main_task (main s) = Some t → 0 ≤ depth t ≤ Z.max 0 (maxDepth c + 1);
  range_workers : Forall (λ w, 0 ≤ currentDepth w ≤ maxDepth c) (workers s);
}.

(** Nothing was dispatched: no goroutine, no event, and only tasks that
    satisfy [P] around. *)
Record idle_inv (P : task → Prop) (s : state) : Prop := {
  idle_workers : workers s = [];
  idle_log : log s = [];
  idle_queue : Forall P (queue s);
  idle_main : ∀ t, main_task (main s) = Some t → P t;
}.

(** The seed was marked before the crawl and is the only task there is. *)
Record revisit_inv (s : state) : Prop := {
  revisit_idle : idle_inv (λ t, url t = DocURL (doc c)) s;
  revisit_seed : visited s (DocURL (doc c)) = true;
  revisit_main : ∀ t, main s ≠ MClaim t ∧ main s ≠ MUnlock t ∧ main s ≠ MDepth t;
}.

(** What is marked was marked before the crawl or is on the initial host. *)
Definition marked_inv (v0 : gmap string bool) (s : state) : Prop :=
  ∀ u, visited s u = true → default false (v0 !! u) = true ∨ in_domain c u.

(** Every page in the index was fetched with status 200, written to its
    local file and parsed; it is indexed under that file with the text
    [extractText] gives. *)
Definition indexed_inv (s : state) : Prop :=
  ∀ filePath plainText,
    EvIndexed filePath plainText ∈ log s →
    ∃ u d body parsedURL htmlDoc,
      EvGet u d ∈ log s
      ∧ http_Get u = Response http_StatusOK body
      ∧ url_Parse u = Some parsedURL
      ∧ filePath = local_file c parsedURL
      ∧ EvSaved filePath body ∈ log s
      ∧ html_Parse body = Some htmlDoc
      ∧ plainText = extractText htmlDoc.

End MoreInvariants.

(** *** The loop over the links of a page *)

Section LinkLoop.
Context `{World}.
Variable c : crawl.

(** Lines 163-168: the link parses and its host is the initial host. *)
Definition on_initial_host (link : string) : bool :=
  match url_Parse link with
  | Some parsedLink => String.eqb (url_Host parsedLink) (initialHost c)
  | None => false
  end.

(** The links of a page that the loop sends to the channel when nothing else
    runs in between: those on the initial host that are not marked, one task
    per occurrence. *)
Definition followed (s : state) (links : list string) : list string :=
  List.filter (λ link, on_initial_host link && negb (visited s link)) links.

Definition link_tasks (currentDepth : Z) (links : list string) : list task :=
  (λ link, {| url := link; depth := int_add currentDepth 1 |}) <$> links.

End LinkLoop.

(** *** The local file of a page, in two steps *)

Section LocalFile.
Context `{World}.
Variable c : crawl.

(** Lines 120-130: [relativePath] when [filePath] is built. *)
Definition relative_path (parsedURL : URL) : string :=
  let relativePath := url_Host parsedURL +:+ url_Path parsedURL in
  let relativePath := strings_TrimPrefix relativePath (initialHost c) in
  let relativePath := strings_TrimPrefix relativePath "/" in
  let relativePath := strings_ReplaceAll relativePath ":" "_" in
  if strings_HasSuffix relativePath "/" || String.eqb relativePath ""
  then relativePath +:+ "index.html"
  else if String.eqb (filepath_Ext relativePath) ""
       then relativePath +:+ ".html"
       else relativePath.

End LocalFile.

(** The bytes of a string. *)
Definition bytes (s : string) : list ascii := list_ascii_of_string s.

(** ** main.go *)

Module main_go.

(** [strings.TrimSpace] and [strings.ToLower], which go by Unicode tables. *)
Class GoStrings := {
  strings_TrimSpace : string → string;
  strings_ToLower : string → string;
}.

(** [strings.Split(s, sep)] for a separator of one byte: the pieces between
    the separators, [[""]] for the empty string. *)
Fixpoint strings_Split (s : string) (sep : ascii) : list string :=
  match s with
  | EmptyString => [""]
  | String ch s' =>
      if Ascii.eqb ch sep then "" :: strings_Split s' sep
      else match strings_Split s' sep with
           | piece :: pieces => String ch piece :: pieces
           | [] => [String ch ""]
           end
  end.

(** [strings.Contains(s, substr)]. *)
Definition strings_Contains (s substr : string) : bool :=
  bool_decide (is_Some (index 0 substr s)).

(** [var allowedLanguages map[string]bool]: nil until [initAllowedLanguages]
    makes it. *)
Inductive language_map :=
  | NilMap
  | MadeMap (m : gmap string bool).

(** main.go, initAllowedLanguages: [None] is [log.Fatal] on the empty list,
    otherwise the map the global is left with. *)
Definition initAllowedLanguages `{GoStrings} (langs : string)
    : option language_map :=
  let allowedLanguages : gmap string bool := ∅ in
  if String.eqb langs "" then None
  else
    Some (MadeMap
            (foldl (λ allowedLanguages lang,
                      <[strings_TrimSpace lang := true]> allowedLanguages)
                   allowedLanguages (strings_Split langs ","))).

(** main.go, isLanguageAllowed. *)
Definition isLanguageAllowed (allowedLanguages : language_map) (lang : string)
    : bool :=
  match allowedLanguages with
  | NilMap => true
  | MadeMap m => default false (m !! lang)
  end.

(** main.go, DocEntry and Doc. *)
Record DocEntry := { EntryName : string; EntryPath : string }.
Record IndexDoc := {
  IndexName : string; IndexVersion : string; Entries : list DocEntry }.

Definition docsBaseURL : string := "https://documents.devdocs.io/".

(** The errors of [fetchIndex] and [ReadDocContent], by the place that
    returns them. *)
Inductive docs_error :=
  | FetchFailed (u : string)
  | BadStatus (u : string) (StatusCode : Z)
  | DecodeFailed
  | ReadFailed (u : string).

(** The documentation host, the JSON library and the texts of errors. *)
Class DocsHost := {
  docs_Get : string → GetResult;
  json_DecodeDoc : string → option IndexDoc;
  json_Marshal : list DocEntry → option string;
  error_text : docs_error → string;
  marshal_error_text : string;
  missing_argument_text : string → string;
}.

Section Docs.
Context `{GoStrings} `{DocsHost}.

(** main.go, fetchIndex: the status is tested before the body is decoded. *)
Definition fetchIndex (langSlug : string) : IndexDoc + docs_error :=
  let indexURL := docsBaseURL +:+ langSlug +:+ "/index.json" in
  match docs_Get indexURL with
  | GetError => inr (FetchFailed indexURL)
  | ReadError StatusCode =>
      if negb (StatusCode =? http_StatusOK)
      then inr (BadStatus indexURL StatusCode)
      else inr DecodeFailed
  | Response StatusCode body =>
      if negb (StatusCode =? http_StatusOK)
      then inr (BadStatus indexURL StatusCode)
      else match json_DecodeDoc body with
           | None => inr DecodeFailed
           | Some d => inl d
           end
  end.

(** The test of the loop of [SearchDoc]. *)
Definition entry_matches (lowerQuery : string) (entry : DocEntry) : bool :=
  strings_Contains (strings_ToLower (EntryName entry)) lowerQuery
  || strings_Contains (strings_ToLower (EntryPath entry)) lowerQuery.

(** main.go, SearchDoc. *)
Definition SearchDoc (langSlug query : string) : list DocEntry + docs_error :=
  let results : list DocEntry := [] in
  match fetchIndex langSlug with
  | inr err => inr err
  | inl d =>
      let lowerQuery := strings_ToLower query in
      inl (foldl (λ results entry,
                    if entry_matches lowerQuery entry
                    then results ++ [entry] else results)
                 results (Entries d))
  end.

(** main.go, ReadDocContent. *)
Definition ReadDocContent (langSlug entryPath : string) : string + docs_error :=
  let contentURL := docsBaseURL +:+ langSlug +:+ "/" +:+ entryPath +:+ ".html" in
  match docs_Get contentURL with
  | GetError => inr (FetchFailed contentURL)
  | ReadError StatusCode =>
      if negb (StatusCode =? http_StatusOK)
      then inr (BadStatus contentURL StatusCode)
      else inr (ReadFailed contentURL)
  | Response StatusCode body =>
      if negb (StatusCode =? http_StatusOK)
      then inr (BadStatus contentURL StatusCode)
      else inl body
  end.

(** [content[:500]]: a slice beyond the length of the string panics. *)
Definition first_500 (content : string) : option string :=
  if (500 <=? String.length content)%nat
  then Some (substring 0 500 content)
  else None.

(** What the [read] command of [main] does. *)
Inductive read_outcome :=
  | ReadFatal                           (* log.Fatal: -lang or -path missing *)
  | ReadLogged (err : docs_error)       (* log.Printf of the error *)
  | ReadPrinted (snippet : string)      (* the snippet is printed *)
  | ReadPanic.                          (* slice bounds out of range *)

(** main.go, main, case "read". *)
Definition main_read (readLang readPath : string) : read_outcome :=
  if String.eqb readLang "" || String.eqb readPath "" then ReadFatal
  else match ReadDocContent readLang readPath with
       | inr err => ReadLogged err
       | inl content =>
           match first_500 content with
           | Some snippet => ReadPrinted snippet
           | None => ReadPanic
           end
       end.

(** An argument of a tool call, and [request.RequireString]. *)
Inductive argument := ArgString (s : string) | ArgOther.

Definition RequireString (request : gmap string argument) (key : string)
    : string + string :=
  match request !! key with
  | Some (ArgString v) => inl v
  | _ => inr (missing_argument_text key)
  end.

(** [mcp.CallToolResult]: [NewToolResultError] or [NewToolResultText]. *)
Inductive CallToolResult :=
  | ToolResultError (msg : string)
  | ToolResultText (text : string).

Definition not_allowed_text (lang : string) : string :=
  "Language '" +:+ lang +:+ "' is not allowed by this server configuration.".

(** main.go, handleSearchDoc. *)
Definition handleSearchDoc (allowedLanguages : language_map)
    (request : gmap string argument) : CallToolResult :=
  match RequireString request "lang" with
  | inr err => ToolResultError err
  | inl lang =>
      match RequireString request "query" with
      | inr err => ToolResultError err
      | inl query =>
          if negb (isLanguageAllowed allowedLanguages lang)
          then ToolResultError (not_allowed_text lang)
          else match SearchDoc lang query with
               | inr err => ToolResultError (error_text err)
               | inl results =>
                   match json_Marshal results with
                   | None => ToolResultError marshal_error_text
                   | Some jsonResults => ToolResultText jsonResults
                   end
               end
      end
  end.

(** main.go, handleReadDocContent. *)
Definition handleReadDocContent (allowedLanguages : language_map)
    (request : gmap string argument) : CallToolResult :=
  match RequireString request "lang" with
  | inr err => ToolResultError err
  | inl lang =>
      match RequireString request "path" with
      | inr err => ToolResultError err
      | inl path =>
          if negb (isLanguageAllowed allowedLanguages lang)
          then ToolResultError (not_allowed_text lang)
          else match ReadDocContent lang path with
               | inr err => ToolResultError (error_text err)
               | inl content => ToolResultText content
               end
      end
  end.

End Docs.

(** *** Stand-ins for the examples: ASCII strings and a host with one index *)

Definition ascii_lower (ch : ascii) : ascii :=
  let n := nat_of_ascii ch in
  if (65 <=? n)%nat && (n <=? 90)%nat then ascii_of_nat (n + 32) else ch.

Fixpoint ascii_ToLower (s : string) : string :=
  match s with
  | EmptyString => EmptyString
  | String ch s' => String (ascii_lower ch) (ascii_ToLower s')
  end.

Fixpoint trim_left (s : string) : string :=
  match s with
  | String ch s' => if Ascii.eqb ch " " then trim_left s' else s
  | EmptyString => EmptyString
  end.

Definition ascii_TrimSpace (s : string) : string :=
  String.rev (trim_left (String.rev (trim_left s))).

Definition ascii_strings : GoStrings :=
  {| strings_TrimSpace := ascii_TrimSpace; strings_ToLower := ascii_ToLower |}.

Definition html_index : IndexDoc :=
  {| IndexName := "html"; IndexVersion := "5";
     Entries := [{| EntryName := "a"; EntryPath := "element/a" |};
                 {| EntryName := "Canvas API"; EntryPath := "api/canvas_api" |};
                 {| EntryName := "img"; EntryPath := "element/img" |}] |}.

(** A host that serves the index of [html] and one short page. *)
Definition one_index : DocsHost :=
  {| docs_Get := λ u,
       if String.eqb u "https://documents.devdocs.io/html/index.json"
       then Response 200 "{html index}"
       else if String.eqb u "https://documents.devdocs.io/html/element/a.html"
            then Response 200 "<h1>a</h1>"
            else Response 404 "";
     json_DecodeDoc := λ body,
       if String.eqb body "{html index}" then Some html_index else None;
     json_Marshal := λ results,
       Some (foldr (λ e rest, EntryPath e +:+ ";" +:+ rest) "" results);
     error_text := λ _, "error";
     marshal_error_text := "marshal error";
     missing_argument_text := λ key, "required argument " +:+ key |}.

End main_go.

(** *** More runs for the examples *)

Module more_examples.
Import testnet examples.

(** A host that answers 404 to everything. *)
Definition nothing_there : site := serve [].

(** The seed is dispatched: its goroutine is about to fetch. *)
Definition seed_dispatched : list actor := Feeder :: replicate 6 Main.

(** The seed is dispatched and its page is fetched: the goroutine is at the
    loop over the links. *)
Definition seed_fetched : list actor := seed_dispatched ++ [Worker 0].

(** [example_doc] is marked already. *)
Definition seed_marked : gmap string bool := {[ "http://example.test/" := true ]}.

End more_examples.

(** *** Runs to completion *)

(** The state between two tasks: the range loop waits at [range queue], the
    mutex is free, the channel is open. *)
Definition between_tasks (v : gmap string bool) (g : nat) (q : list task)
    (pf : feeder_pc) (ws : list worker) (lg : list event) : state :=
  {| visitedURLs := v; mu := false; wg := g; queue := q; closed := false;
     main := MRange; feeder := pf; workers := ws; log := lg;
     panicked := false |}.

Section Completes.
Context `{World}.
Variable c : crawl.



End Completes.

(** * Properties *)

(** Induction on the tree, with the hypothesis for every child. *)
Lemma Node_tree_ind (P : Node → Prop) :
  (∀ t d a cs, Forall P cs → P (MkNode t d a cs)) → ∀ n, P n.
Proof.
  intros step. fix IH 1. intros [t d a cs]. apply step.
  induction cs as [|c cs IHcs]; constructor; [apply IH | exact IHcs].
Qed.

Lemma sum_list_with_insert {A} (f : A → nat) (l : list A) i x y :
  l !! i = Some x →
  (sum_list_with f (<[i:=y]> l) + f x = sum_list_with f l + f y)%nat.
Proof.
  revert i. induction l as [|a l IH]; intros [|i] Hi; simplify_eq/=; [lia|].
  specialize (IH _ Hi). lia.
Qed.



Section MachineFacts.
Context `{World}.
Variable c : crawl.

Lemma fetch_page_pc u d :
  (fetch_page c u d).2 = WDefer ∨ ∃ links, (fetch_page c u d).2 = WLoop links.
Proof.
  unfold fetch_page. repeat case_match; simpl; eauto.
Qed.

(** What every step keeps holds after every schedule. *)
Lemma run_invariant (P : state → Prop) :
  (∀ a s s', P s → step c a s = Some s' → P s') →
  ∀ sched s, P s → P (run c sched s).
Proof.
  intros Hstep sched. induction sched as [|a sched IH]; intros s Hs; [done|].
  simpl. apply IH. destruct (step c a s) as [s'|] eqn:Ha; simpl; eauto.
Qed.

Lemma run_app sched sched' s :
  run c (sched ++ sched') s = run c sched' (run c sched s).
Proof. revert s. induction sched as [|a sched IH]; intros s; simpl; eauto. Qed.

Lemma sync_inv_init v0 : sync_inv (init v0).
Proof. split; simpl; try done; intuition discriminate. Qed.

Lemma sync_inv_step a s s' :
  sync_inv s → step c a s = Some s' → sync_inv s'.
Proof.
  intros [Hp Hwg Hmu Hw Hc] Hstep. unfold step in Hstep. rewrite Hp in Hstep.
  destruct s as [v m g q cl pm pf ws lg pn].
  unfold outstanding, lock_holders in *; simpl in *.
  destruct a as [| |i].
  - (* the range loop *)
    unfold step_main, mu_Unlock, wg_Done in Hstep; simpl in Hstep.
    destruct pm; simpl in *;
      repeat (case_match; simplify_eq/=);
      split; unfold outstanding, lock_holders; simpl;
      rewrite ?sum_list_with_app; simpl; try done; try lia;
      try (intros [?|?]; simplify_eq; lia); try tauto.
      all: try (intuition (try discriminate; try lia)).
  - (* the goroutine that sends the seed and closes the channel *)
    unfold step_feeder, chan_send in Hstep; simpl in Hstep.
    assert (cl = true → pf = FExit) by tauto.
    destruct pf, cl; simpl in *;
      repeat (case_match; simplify_eq/=);
      split; unfold outstanding, lock_holders; simpl;
      rewrite ?length_app; simpl; try done; try lia;
      try (intuition (try discriminate; try lia)).
  - (* a fetchAndProcess goroutine *)
    unfold step_worker in Hstep; simpl in Hstep.
    destruct (ws !! i) as [w|] eqn:Hi; [|done].
    pose proof (λ w', sum_list_with_insert worker_holds ws i w w' Hi) as Hsum.
    pose proof (λ w', sum_list_with_insert worker_locks ws i w w' Hi) as Hlck.
    pose proof (sum_list_with_in w worker_holds ws
                  (list_elem_of_lookup_2 _ _ _ Hi)) as Hge.
    pose proof (sum_list_with_in w worker_locks ws
                  (list_elem_of_lookup_2 _ _ _ Hi)) as Hgl.
    destruct w as [u d pc]; simpl in *.
    assert (cl = true → pf = FExit) by tauto.
    assert (pf = FExit → g = 0%nat) by tauto.
    assert (pf = FClose → g = 0%nat) by tauto.
    pose proof (fetch_page_pc u d) as Hpc.
    unfold set_pc, chan_send, mu_Unlock, wg_Done in Hstep; simpl in Hstep.
    destruct pc; simpl in *;
      try destruct (fetch_page c u d) as [evs pc0]; simpl in *;
      repeat (case_match; simplify_eq/=);
      try (destruct Hpc as [->|[? ->]]);
      repeat match goal with
        | |- context [<[i := ?w']> ws] =>
            lazymatch goal with
            | _ : context [sum_list_with worker_holds (<[i := w']> ws)] |- _ => fail
            | _ => pose proof (Hsum w'); pose proof (Hlck w')
            end
        end;
      clear Hsum Hlck; cbn in *;
      split; unfold outstanding, lock_holders; cbn;
      rewrite ?length_app; cbn; try done; try lia;
      try (intuition (try discriminate; try lia)).
Qed.

Lemma fetched_app l l' : fetched (l ++ l') = fetched l ++ fetched l'.
Proof. apply omap_app. Qed.

Lemma fetched_fetch_page u d : fetched (fetch_page c u d).1 = [(u, d)].
Proof. unfold fetch_page. repeat case_match; reflexivity. Qed.

Lemma host_inv_init v0 : seed_parsed c → host_inv c (init v0).
Proof.
  intros (p & Hp & Hh). split; simpl; try done; try constructor.
  exists p. eauto.
Qed.

Lemma host_inv_step a s s' :
  host_inv c s → step c a s = Some s' → host_inv c s'.
Proof.
  intros [Hseed Hq Hm Hws Hf] Hstep. unfold step in Hstep.
  destruct s as [v m g q cl pm pf ws lg pn]; simpl in *.
  destruct pn; [done|]. destruct a as [| |i].
  - unfold step_main, mu_Unlock, wg_Done in Hstep; simpl in Hstep.
    destruct pm; simpl in *;
      repeat case_match; simplify_eq/=;
      split; simpl; try done; eauto.
    all: try (by inversion Hq).
    + intros ? [= <-]. by inversion Hq.
    + apply Forall_app; split; [done|]. repeat constructor; simpl; [eauto|done].
  - unfold step_feeder, chan_send in Hstep; simpl in Hstep.
    destruct pf; simpl in *;
      repeat case_match; simplify_eq/=;
      split; simpl; try done; eauto.
    apply Forall_app; split; [done|]. by repeat constructor.
  - unfold step_worker in Hstep; simpl in Hstep.
    destruct (ws !! i) as [w|] eqn:Hi; [|done].
    pose proof (Forall_lookup_1 _ _ _ _ Hws Hi) as [Hwu Hwl].
    destruct w as [u d pc]; simpl in *.
    pose proof (fetched_fetch_page u d) as Hfp.
    pose proof (fetch_page_pc u d) as Hpc.
    unfold set_pc, chan_send, mu_Unlock, wg_Done in Hstep; simpl in Hstep.
    destruct pc; simpl in *;
      try destruct (fetch_page c u d) as [evs pc0]; simpl in *;
      repeat case_match; simplify_eq/=;
      split; simpl; try done; eauto;
      try (apply Forall_insert; [done|]; split; simpl; [done|];
           intros ? ?; simplify_eq/=; eauto).
    + by destruct Hpc as [->|[? ->]].
    + rewrite fetched_app, Hfp. apply Forall_app; split; [done|].
      by repeat constructor.
    + match goal with
      | Hpl : url_Parse _ = Some ?p, He : String.eqb _ _ = true |- _ =>
          exists p; split; [done | by apply String.eqb_eq]
      end.
    + apply Forall_app; split; [done|]. repeat constructor; simpl. eauto.
Qed.

Lemma depth_inv_init v0 : depth_inv c (init v0).
Proof. split; simpl; constructor. Qed.

Lemma depth_inv_step a s s' :
  depth_inv c s → step c a s = Some s' → depth_inv c s'.
Proof.
  intros [Hws Hf] Hstep. unfold step in Hstep.
  destruct s as [v m g q cl pm pf ws lg pn]; simpl in *.
  destruct pn; [done|]. destruct a as [| |i].
  - unfold step_main, mu_Unlock, wg_Done in Hstep; simpl in Hstep.
    destruct pm; simpl in *;
      repeat case_match; simplify_eq/=; split; simpl; try done.
    apply Forall_app; split; [done|]. repeat constructor; simpl. lia.
  - unfold step_feeder, chan_send in Hstep; simpl in Hstep.
    destruct pf; simpl in *;
      repeat case_match; simplify_eq/=; split; simpl; done.
  - unfold step_worker in Hstep; simpl in Hstep.
    destruct (ws !! i) as [w|] eqn:Hi; [|done].
    pose proof (Forall_lookup_1 _ _ _ _ Hws Hi) as Hwd.
    destruct w as [u d pc]; simpl in *.
    pose proof (fetched_fetch_page u d) as Hfp.
    unfold set_pc, chan_send, mu_Unlock, wg_Done in Hstep; simpl in Hstep.
    destruct pc; simpl in *;
      try destruct (fetch_page c u d) as [evs pc0]; simpl in *;
      repeat case_match; simplify_eq/=;
      split; simpl; try done;
      try (by apply Forall_insert).
    rewrite fetched_app, Hfp. apply Forall_app; split; [done|].
    by repeat constructor.
Qed.

(** What a step of a [fetchAndProcess] goroutine leaves alone. *)
Lemma step_worker_frame i s s' :
  step_worker c i s = Some s' →
  ∃ w pc',
    workers s !! i = Some w ∧ pc' ≠ WFetch
    ∧ workers s' = <[i := {| currentURL := currentURL w;
                             currentDepth := currentDepth w;
                             w_pc := pc' |}]> (workers s)
    ∧ visitedURLs s' = visitedURLs s ∧ main s' = main s
    ∧ (fetched (log s') = fetched (log s)
       ∨ (w_pc w = WFetch
          ∧ fetched (log s')
            = fetched (log s) ++ [(currentURL w, currentDepth w)])).
Proof.
  unfold step_worker. intros Hstep.
  destruct (workers s !! i) as [w|] eqn:Hi; [|done].
  exists w. destruct s as [v m g q cl pm pf ws lg pn], w as [u d pc].
  pose proof (fetched_fetch_page u d) as Hfp.
  pose proof (fetch_page_pc u d) as Hpc.
  unfold set_pc, chan_send, mu_Unlock, wg_Done in Hstep; simpl in *.
  destruct pc; simpl in *;
    try destruct (fetch_page c u d) as [evs pc0]; simpl in *;
    repeat case_match; simplify_eq/=;
    try (eexists; split_and!; [done| |done|done|done|by left]; done).
  exists pc0. split_and!; try done.
  - by destruct Hpc as [->|[? ->]].
  - right. by rewrite fetched_app, Hfp.
Qed.

Lemma once_inv_init v0 : once_inv (init v0).
Proof.
  split; simpl.
  - constructor.
  - constructor.
  - done.
  - intros t [?|?]; done.
  - intros u Hu. by apply elem_of_nil in Hu.
  - constructor.
Qed.

Lemma visited_insert s u u' :
  visited (with_visited (<[u:=true]> (visitedURLs s)) s) u'
  = if decide (u = u') then true else visited s u'.
Proof.
  unfold visited; simpl. rewrite lookup_insert. by case_decide.
Qed.

Lemma once_inv_step a s s' :
  once_inv s → step c a s = Some s' → once_inv s'.
Proof.
  intros [Hv Hnd Hcl Hcd Hf Hl] Hstep. unfold step in Hstep.
  destruct (panicked s) eqn:Hpn; [done|]. destruct a as [| |i].
  - destruct s as [v m g q cl pm pf ws lg pn].
    unfold step_main, mu_Unlock, wg_Done, visited in *; simpl in *.
    destruct pm; simpl in *;
      repeat case_match; simplify_eq/=;
      split; unfold visited; simpl; try done; eauto;
      try solve [intros ? [?|?]; simplify_eq/=; eauto];
      try solve [intros ? ?; simplify_eq/=; eauto].
    + eapply Forall_impl; [exact Hv|]. intros w Hw; simpl in *.
      rewrite lookup_insert. by case_decide.
    + intros t [[= <-]|[=]]. rewrite lookup_insert_eq. split; [done|].
      intros (w & Hu & Hw)%list_elem_of_fmap.
      rewrite Forall_forall in Hv. specialize (Hv _ Hw); simpl in Hv.
      specialize (Hcl _ eq_refl). congruence.
    + destruct (Hcd current) as [Hvis _]; [by right|].
      apply Forall_app; split; [done|]. by repeat constructor.
    + destruct (Hcd current) as [_ Hfresh]; [by right|].
      rewrite fmap_app; simpl. apply NoDup_app; split_and!; [done| |].
      * intros u Hu ->%list_elem_of_singleton. done.
      * apply NoDup_singleton.
    + intros u Hu. destruct (Hf _ Hu) as (j & w & Hj & Hw & Hpc).
      exists j, w. split_and!; try done. by apply lookup_app_l_Some.
  - destruct s as [v m g q cl pm pf ws lg pn].
    unfold step_feeder, chan_send, visited in *; simpl in *.
    destruct pf; simpl in *;
      repeat case_match; simplify_eq/=;
      split; unfold visited; simpl; done.
  - change (step_worker c i s = Some s') in Hstep.
    apply step_worker_frame in Hstep
      as (w & pc' & Hi & Hpc' & Hws & Hvis & Hmain & Hlog).
    assert (currentURL <$> workers s' = currentURL <$> workers s) as Hurls.
    { rewrite Hws, list_fmap_insert; simpl.
      apply list_insert_id. by rewrite list_lookup_fmap, Hi. }
    unfold visited in *. split; unfold visited; rewrite ?Hvis, ?Hmain, ?Hurls; try done.
    + rewrite Hws. apply Forall_insert; [done|]; simpl.
      by apply (Forall_lookup_1 _ _ _ _ Hv Hi).
    + assert (∀ u, (∃ j w0, workers s !! j = Some w0 ∧ currentURL w0 = u
                              ∧ w_pc w0 ≠ WFetch) →
                   ∃ j w0, workers s' !! j = Some w0 ∧ currentURL w0 = u
                              ∧ w_pc w0 ≠ WFetch) as Hkeep.
      { intros u (j & w0 & Hj & Hu & Hp). rewrite Hws.
        destruct (decide (j = i)) as [->|Hne].
        - eexists i, _. rewrite list_lookup_insert_eq
            by (eapply lookup_lt_Some; eauto).
          simplify_eq. by split_and!.
        - exists j, w0. by rewrite list_lookup_insert_ne. }
      intros u Hu. destruct Hlog as [Hlog|[Hwf Hlog]]; rewrite Hlog in Hu.
      * by apply Hkeep, Hf.
      * rewrite fmap_app in Hu. apply elem_of_app in Hu as [Hu|Hu].
        -- by apply Hkeep, Hf.
        -- apply list_elem_of_singleton in Hu; simpl in Hu; subst u.
           eexists i, _. rewrite Hws, list_lookup_insert_eq
             by (eapply lookup_lt_Some; eauto). done.
    + destruct Hlog as [Hlog|[Hwf Hlog]]; rewrite Hlog; [done|].
      rewrite fmap_app. apply NoDup_app; split_and!; [done| |apply NoDup_singleton].
      intros u Hu ->%list_elem_of_singleton; simpl in Hu.
      destruct (Hf _ Hu) as (j & w0 & Hj & Hw0 & Hp).
      assert (j = i) as ->.
      { apply (NoDup_lookup _ j i (currentURL w) Hnd);
          rewrite list_lookup_fmap; [rewrite Hj|rewrite Hi]; simpl; congruence. }
      congruence.
Qed.

End MachineFacts.


(** ** The extractor *)

Lemma append_cons ch (a b : string) : String ch a +:+ b = String ch (a +:+ b).
Proof. reflexivity. Qed.

Lemma append_empty_l (b : string) : "" +:+ b = b.
Proof. reflexivity. Qed.

Lemma append_assoc (a b d : string) : (a +:+ b) +:+ d = a +:+ (b +:+ d).
Proof.
  induction a as [|ch a IH]; rewrite ?append_empty_l, ?append_cons; congruence.
Qed.

Lemma append_empty_r (a : string) : a +:+ "" = a.
Proof.
  induction a as [|ch a IH]; rewrite ?append_empty_l, ?append_cons; congruence.
Qed.

Lemma foldr_append_app (l k : list string) :
  foldr String.append "" (l ++ k)
  = foldr String.append "" l +:+ foldr String.append "" k.
Proof.
  induction l as [|x l IH]; simpl; [done|].
  by rewrite IH, append_assoc.
Qed.

Lemma hidden_text_empty (n : Node) :
  List.filter visible_text_node (document_order true n) = [].
Proof.
  induction n as [t d a cs IH] using Node_tree_ind; simpl.
  induction IH as [|c cs Hc _ IHcs]; simpl; [done|].
  by rewrite List.filter_app, Hc, IHcs.
Qed.

(** C8. The string [extractText] returns is the concatenation, in document
    order, of the text nodes that do not lie beneath a [script] or [style]
    element, whatever the depth of the nesting. *)
Theorem extractText_visible_text (n : Node) : extractText n = visible_text n.
Proof.
  unfold extractText, visible_text.
  (* the closure [f] appends the visible text of its node to the builder *)
  enough (∀ b, extractText_f n b
               = b +:+ foldr String.append ""
                         ((λ hn : bool * Node, Data hn.2)
                            <$> List.filter visible_text_node
                                  (document_order false n))) as Hf
    by (by rewrite Hf).
  induction n as [t d a cs IH] using Node_tree_ind; intros b.
  cbn [extractText_f document_order].
  set (text_of := λ h cs,
         foldr String.append ""
           ((λ hn : bool * Node, Data hn.2)
              <$> List.filter visible_text_node
                    (flat_map (document_order h) cs))).
  (* beneath a non-rendering element nothing is visible *)
  assert (text_of true cs = "") as Hhidden.
  { unfold text_of. clear. induction cs as [|c cs IHcs]; simpl; [done|].
    by rewrite List.filter_app, hidden_text_empty. }
  (* the loop over the children *)
  assert (∀ b,
    (fix siblings (cs : list Node) (b : string) : string :=
       match cs with
       | [] => b
       | c :: cs' => siblings cs' (extractText_f c b)
       end) cs b = b +:+ text_of false cs) as Hsiblings.
  { unfold text_of. clear -IH.
    induction IH as [|c cs Hc _ IHcs]; intros b; simpl.
    - by rewrite append_empty_r.
    - rewrite IHcs, Hc, List.filter_app, fmap_app, foldr_append_app.
      by rewrite append_assoc. }
  rewrite Hsiblings. unfold non_rendering; simpl.
  unfold visible_text_node at 1; simpl.
  destruct t; simpl; rewrite ?append_assoc; try done;
    fold (text_of false cs); fold (text_of true cs).
  destruct (_ || _); simpl; [|done].
  fold (text_of true cs). by rewrite Hhidden, append_empty_r.
Qed.

Section ExtractLinks.
Context `{NetURL}.

Lemma attr_links_app wanted baseURL attrs links :
  attr_links wanted baseURL attrs links
  = links ++ attr_links wanted baseURL attrs [].
Proof.
  revert links. induction attrs as [|a attrs IH]; intros links; simpl.
  - by rewrite app_nil_r.
  - rewrite IH. symmetry. rewrite IH. repeat case_match; simpl;
      by rewrite ?app_nil_r, <-?app_assoc.
Qed.

Lemma attr_links_elem wanted baseURL attrs a :
  a ∈ attrs → wanted a = true → resolveURL baseURL (Val a) ≠ "" →
  resolveURL baseURL (Val a) ∈ attr_links wanted baseURL attrs [].
Proof.
  intros Ha Hw Hr.
  induction Ha as [a attrs|a a' attrs _ IH]; simpl; rewrite attr_links_app.
  - rewrite Hw. apply String.eqb_neq in Hr. rewrite Hr. set_solver.
  - set_solver.
Qed.

Lemma extractLinks_unfold n baseURL :
  extractLinks n baseURL
  = own_links n baseURL
    ++ flat_map (λ ch, extractLinks ch baseURL) (Children n).
Proof.
  destruct n as [t d a cs]. cbn [extractLinks Children].
  change (if bool_decide (t = ElementNode) then _ else _)
    with (own_links (MkNode t d a cs) baseURL).
  generalize (own_links (MkNode t d a cs) baseURL) as links.
  induction cs as [|ch cs IH]; intros links; simpl.
  - by rewrite app_nil_r.
  - by rewrite IH, <-app_assoc.
Qed.

Lemma own_links_elem n a baseURL :
  a ∈ Attr n → link_attribute n a → resolveURL baseURL (Val a) ≠ "" →
  resolveURL baseURL (Val a) ∈ own_links n baseURL.
Proof.
  intros Ha (Ht & Hk) Hr. unfold own_links.
  rewrite bool_decide_eq_true_2 by done.
  destruct Hk as [[-> Hk]|[[-> Hk]|[[-> | ->] Hk]]]; simpl;
    apply attr_links_elem; try done; by rewrite Hk.
Qed.

Lemma extractLinks_elem n m a baseURL :
  m ∈ nodes n → a ∈ Attr m → link_attribute m a →
  resolveURL baseURL (Val a) ≠ "" →
  resolveURL baseURL (Val a) ∈ extractLinks n baseURL.
Proof.
  intros Hm Ha Hl Hr. revert Hm.
  induction n as [t d at' cs IH] using Node_tree_ind.
  rewrite extractLinks_unfold. cbn [nodes Children].
  intros [->|Hm]%elem_of_cons; apply elem_of_app.
  - left. by apply own_links_elem.
  - right. apply list_elem_of_In, in_flat_map in Hm as (ch & Hch & Hm).
    apply list_elem_of_In, in_flat_map. exists ch. split; [done|].
    apply list_elem_of_In. rewrite Forall_forall in IH.
    apply IH; by apply list_elem_of_In.
Qed.

End ExtractLinks.

(** ** The crawl *)

Section Crawl.
Context `{World}.
Variable c : crawl.

Lemma sync_inv_run v0 sched : sync_inv (run c sched (init v0)).
Proof. apply run_invariant; [apply sync_inv_step | apply sync_inv_init]. Qed.

(** X1. The pairing of [wg.Add] and [wg.Done]: under every schedule the
    counter is the number of tasks in flight, and no [Done], [Unlock], send
    or [close] panics. *)
Lemma wg_counts_tasks_in_flight v0 sched :
  let s := run c sched (init v0) in
  wg s = outstanding s ∧ panicked s = false.
Proof.
  intros s. destruct (sync_inv_run v0 sched) as [Hp Hwg _ _ _]. by split.
Qed.

Lemma once_inv_run v0 sched : once_inv (run c sched (init v0)).
Proof. apply run_invariant; [apply once_inv_step | apply once_inv_init]. Qed.

Lemma depth_inv_run v0 sched : depth_inv c (run c sched (init v0)).
Proof. apply run_invariant; [apply depth_inv_step | apply depth_inv_init]. Qed.

Lemma host_inv_run v0 sched :
  seed_parsed c → host_inv c (run c sched (init v0)).
Proof.
  intros Hseed. apply run_invariant; [apply host_inv_step|].
  by apply host_inv_init.
Qed.

(** Whoever is between [Lock] and [Unlock] finds the mutex locked. *)
Lemma main_locks_mu s : sync_inv s → main_locks (main s) = 1%nat → mu s = true.
Proof.
  intros [_ _ Hmu _ _] Hm. unfold lock_holders in Hmu. rewrite Hm in Hmu.
  by destruct (mu s).
Qed.

(** Whoever holds a task finds the counter positive. *)
Lemma main_holds_wg s :
  sync_inv s → main_holds (main s) = 1%nat → ∃ n, wg s = S n.
Proof.
  intros [_ Hwg _ _ _] Hm. unfold outstanding in Hwg. rewrite Hm in Hwg.
  destruct (wg s) as [|n]; [lia|eauto].
Qed.


(** C2. In every crawl, [fetchAndProcess] is started at most once for a URL
    string and [http.Get] is called at most once for it; every goroutine was
    started after its URL was marked in [visitedURLs], the test and the
    marking are done with [s.mu] locked, and no goroutine has the URL yet
    when the range loop is about to start one; a task whose URL the range
    loop finds marked is given back to the counter without a goroutine, a
    fetch or a change of [visitedURLs]. *)
Theorem fetchAndProcess_at_most_once v0 sched :
  let s := run c sched (init v0) in
  NoDup (currentURL <$> workers s)
  ∧ NoDup (fetched (log s)).*1
  ∧ Forall (λ w, visited s (currentURL w) = true) (workers s)
  ∧ (∀ t, main s = MTest t ∨ main s = MClaim t → mu s = true)
  ∧ (∀ t, main s = MDepth t → url t ∉ currentURL <$> workers s)
  ∧ ∀ t, main s = MTest t → visited s (url t) = true →
      let s' := run c [Main; Main; Main] s in
      main s' = MRange ∧ workers s' = workers s ∧ log s' = log s
      ∧ visitedURLs s' = visitedURLs s ∧ wg s = S (wg s').
Proof.
  intros s. pose proof (once_inv_run v0 sched) as [Hv Hnd _ Hcd _ Hl].
  pose proof (sync_inv_run v0 sched) as Hsync.
  fold s in Hv, Hnd, Hcd, Hl, Hsync.
  split_and!; try done.
  { intros t [Ht|Ht]; apply (main_locks_mu s Hsync); by rewrite Ht. }
  { intros t Ht. apply Hcd. by right. }
  intros t Ht Hvis.
  pose proof (main_locks_mu s Hsync) as Hmu.
  pose proof (main_holds_wg s Hsync) as Hwg.
  pose proof (inv_no_panic s Hsync) as Hp.
  rewrite Ht in Hmu, Hwg. destruct Hwg as [n Hn]; [done|].
  specialize (Hmu eq_refl). clear Hv Hnd Hcd Hl Hsync. clearbody s.
  destruct s as [v m g q cl pm pf ws lg pn]; unfold visited in Hvis;
    simpl in *; subst.
  unfold step, step_main, visited; simpl. by rewrite Hvis.
Qed.

(** C3. Every [fetchAndProcess] goroutine runs, and every page is fetched, at
    a depth of at most [maxDepth]; a task taken from the channel with a
    greater depth is dropped by the range loop without a goroutine and
    without a fetch. *)
Theorem fetch_depth_within_maxDepth v0 sched :
  let s := run c sched (init v0) in
  Forall (λ w, currentDepth w ≤ maxDepth c) (workers s)
  ∧ Forall (λ f, f.2 ≤ maxDepth c) (fetched (log s))
  ∧ ∀ t, main s = MDepth t → maxDepth c < depth t →
      let s' := run c [Main] s in
      main s' = MRange ∧ workers s' = workers s ∧ log s' = log s.
Proof.
  intros s. pose proof (depth_inv_run v0 sched) as [Hw Hf].
  pose proof (sync_inv_run v0 sched) as Hsync. fold s in Hw, Hf, Hsync.
  split_and!; try done.
  intros t Ht Hd. pose proof (inv_no_panic s Hsync) as Hp.
  apply Z.ltb_lt in Hd. clear Hw Hf Hsync. clearbody s.
  destruct s as [v m g q cl pm pf ws lg pn]; simpl in *; subst.
  unfold step, step_main, wg_Done; simpl. rewrite Hd. by destruct g.
Qed.

(** C9. [extractLinks] returns the resolved value of every link attribute of
    the page, whatever its host; and a link whose host is not the initial
    host is never in the channel, never in the hands of the range loop or of
    a [fetchAndProcess] goroutine, and never fetched. *)
Theorem other_host_links_found_not_followed v0 sched :
  seed_parsed c →
  (∀ n m a baseURL,
     m ∈ nodes n → a ∈ Attr m → link_attribute m a →
     resolveURL baseURL (Val a) ≠ "" →
     resolveURL baseURL (Val a) ∈ extractLinks n baseURL)
  ∧ ∀ link parsedLink,
      url_Parse link = Some parsedLink →
      url_Host parsedLink ≠ initialHost c →
      let s := run c sched (init v0) in
      (link ∉ url <$> queue s)
      ∧ (∀ t, main_task (main s) = Some t → url t ≠ link)
      ∧ (∀ w, w ∈ workers s →
           currentURL w ≠ link ∧ pending_link (w_pc w) ≠ Some link)
      ∧ link ∉ (fetched (log s)).*1.
Proof.
  intros Hseed. split; [intros; by eapply extractLinks_elem|].
  intros link p Hp Hhost s.
  pose proof (host_inv_run v0 sched Hseed) as [_ Hq Hm Hw Hf].
  fold s in Hq, Hm, Hw, Hf.
  assert (¬ in_domain c link) as Hout.
  { intros (p' & Hp' & Hh). congruence. }
  clearbody s. rewrite Forall_forall in Hq. rewrite Forall_forall in Hw.
  rewrite Forall_forall in Hf. split_and!.
  - intros (t & -> & Ht)%list_elem_of_fmap. by apply Hout, Hq.
  - intros t Ht <-. by apply Hout, Hm.
  - intros w Hin. destruct (Hw w Hin) as [Hu Hl]. split.
    + intros <-. by apply Hout.
    + intros Hpl. by apply Hout, Hl.
  - intros (f & -> & Hin)%list_elem_of_fmap. by apply Hout, Hf.
Qed.

(** C4 (amended). When the range loop reaches the depth test with a task
    deeper than [maxDepth], the URL of the task is already marked in
    [visitedURLs] (lines 71-78 run before the test); the task is then given
    back to the counter at once: no goroutine is started, nothing is fetched,
    and the step changes neither [visitedURLs] nor the channel. *)
Theorem depth_exceeded_task_claimed_not_fetched v0 sched t :
  let s := run c sched (init v0) in
  main s = MDepth t → maxDepth c < depth t →
  visited s (url t) = true
  ∧ let s' := run c [Main] s in
    main s' = MRange ∧ wg s = S (wg s') ∧ workers s' = workers s
    ∧ log s' = log s ∧ visitedURLs s' = visitedURLs s ∧ queue s' = queue s.
Proof.
  intros s Ht Hd.
  pose proof (once_inv_run v0 sched) as [_ _ _ Hcd _ _].
  pose proof (sync_inv_run v0 sched) as Hsync. fold s in Hcd, Hsync.
  destruct (Hcd t) as [Hvis _]; [by right|]. split; [done|].
  pose proof (main_holds_wg s Hsync) as Hwg.
  pose proof (inv_no_panic s Hsync) as Hp.
  rewrite Ht in Hwg. destruct Hwg as [n Hn]; [done|].
  apply Z.ltb_lt in Hd. clear Hcd Hsync Hvis. clearbody s.
  destruct s as [v m g q cl pm pf ws lg pn]; simpl in *; subst.
  unfold step, step_main, wg_Done; simpl. by rewrite Hd.
Qed.

(** C5 (amended). When [os.MkdirAll] or [ioutil.WriteFile] fails for a
    fetched page, [fetchAndProcess] returns: the deferred [wg.Done] marks
    the task done, nothing is saved or indexed, and no link of the page is
    extracted or sent to the channel. *)
Theorem storage_error_ends_task v0 sched i w body parsedURL :
  let s := run c sched (init v0) in
  workers s !! i = Some w → w_pc w = WFetch →
  http_Get (currentURL w) = Response http_StatusOK body →
  url_Parse (currentURL w) = Some parsedURL →
  os_MkdirAll (filepath_Dir (local_file c parsedURL)) = true
  ∨ ioutil_WriteFile (local_file c parsedURL) body = true →
  let s' := run c [Worker i; Worker i] s in
  workers s' = <[i := {| currentURL := currentURL w;
                         currentDepth := currentDepth w;
                         w_pc := WExit |}]> (workers s)
  ∧ log s' = log s ++ [EvGet (currentURL w) (currentDepth w)]
  ∧ queue s' = queue s ∧ wg s = S (wg s')
  ∧ visitedURLs s' = visitedURLs s.
Proof.
  intros s Hi Hpc Hget Hparse Hfail.
  pose proof (sync_inv_run v0 sched) as Hsync. fold s in Hsync.
  pose proof (inv_no_panic s Hsync) as Hp.
  assert (∃ n, wg s = S n) as [n Hn].
  { destruct Hsync as [_ Hwg _ _ _]. unfold outstanding in Hwg.
    pose proof (sum_list_with_in w worker_holds (workers s)
                  (list_elem_of_lookup_2 _ _ _ Hi)) as Hge.
    unfold worker_holds at 1 in Hge. rewrite Hpc in Hge.
    destruct (wg s) as [|n]; [lia|eauto]. }
  assert (fetch_page c (currentURL w) (currentDepth w)
          = ([EvGet (currentURL w) (currentDepth w)], WDefer)) as Hfetch.
  { unfold fetch_page. rewrite Hget, Hparse; simpl.
    destruct Hfail as [-> | ->]; [done|]. by case_match. }
  assert (i < length (workers s))%nat as Hlt by (by eapply lookup_lt_Some).
  clear Hsync. clearbody s.
  destruct s as [v m g q cl pm pf ws lg pn], w as [u d pc]; simpl in *; subst.
  unfold step, step_worker; simpl. rewrite Hi; simpl. rewrite Hfetch; simpl.
  rewrite list_lookup_insert_eq by done; simpl.
  by rewrite list_insert_insert_eq.
Qed.

End Crawl.

(** ** The index *)

Section IndexerFacts.
Import indexer.
Context `{Bleve}.

Lemma hit_paths_ID hits : hit_paths hits = ID <$> hits.
Proof.
  unfold hit_paths.
  assert (∀ acc : list string,
            foldl (λ matchingPaths hit, matchingPaths ++ [ID hit]) acc hits
            = acc ++ (ID <$> hits)) as Hacc.
  { induction hits as [|hit hits IH]; intros acc; simpl.
    - by rewrite app_nil_r.
    - by rewrite IH, <-app_assoc. }
  apply Hacc.
Qed.

(** C7 (amended). [Search] returns, best first, the first ten documents
    that match the query; every matching document is returned when at most
    ten documents match. *)
Theorem Search_first_ten_matches (i : bleve_Index) (query : string) paths :
  paged_search →
  Search i query = inl paths →
  paths = take 10 (matching i (bleve_NewQueryStringQuery query))
  ∧ ((length (matching i (bleve_NewQueryStringQuery query)) ≤ 10)%nat →
     paths = matching i (bleve_NewQueryStringQuery query)).
Proof.
  intros Hpaged Hsearch. unfold Search in Hsearch.
  destruct (index_Search i _) as [res|] eqn:Hres; [|done].
  injection Hsearch as <-. rewrite hit_paths_ID, (Hpaged _ _ _ Hres); simpl.
  split; [done|]. intros Hlen. by apply firstn_all2.
Qed.

End IndexerFacts.

(** ** Small runs *)

Section SmallRuns.
Import testnet examples.

(** Text below [script] is skipped at any depth, text around it is kept. *)
Example extractText_nested_script :
  extractText
    (document
       [text "before ";
        MkNode ElementNode "div" []
          [MkNode ElementNode "script" []
             [text "var x;"; MkNode ElementNode "b" [] [text "deep"]];
           MkNode ElementNode "style" [] [text "p {}"];
           text "inside "];
        MkNode CommentNode "a comment" [] [];
        text "after"])
  = "before inside after".
Proof. reflexivity. Qed.

Example extractLinks_two_hosts :
  extractLinks
    (document [anchor "/a" "A"; anchor "http://other.test/" "other";
               MkNode ElementNode "img"
                 [{| Namespace := ""; Key := "src"; Val := "/logo.png" |};
                  {| Namespace := ""; Key := "href"; Val := "/ignored" |}] []])
    "http://example.test/"
  = ["http://example.test/a"; "http://other.test/";
     "http://example.test/logo.png"].
Proof. vm_compute; reflexivity. Qed.

(** The scenario of the specification: seed [http://example.test/],
    [maxDepth = 1]; [/] and [/a] are fetched and indexed, [other.test] is
    not, and the crawl returns with the counter at 0. *)
Example two_hosts_scenario :
  let w := world two_hosts in
  let s := @run net_url w (example_crawl 1) (round_robin 40 3) (init ∅) in
  @DownloadDoc net_url w "/docs" ∅ example_doc 1 (round_robin 40 3)
  = Returned None
  ∧ wg s = 0%nat ∧ closed s = true
  ∧ fetched (log s) = [("http://example.test/", 0); ("http://example.test/a", 1)].
Proof. vm_compute. repeat split. Qed.

(** An unparsable seed is the one error [DownloadDoc] returns. *)
Example unparsable_seed :
  @DownloadDoc net_url (world two_hosts) "/docs" ∅
    {| Name := "bad"; Version := "1"; DocURL := "://example.test" |} 1 []
  = Returned (Some "invalid initial URL").
Proof. reflexivity. Qed.

End SmallRuns.

(** ** Examples on the test network *)

Section Examples.
Import testnet examples.

Lemma example_seed_parsed maxDepth :
  @seed_parsed net_url (example_crawl maxDepth).
Proof. by eexists. Defined.

(** Nothing can move any more: every further schedule changes nothing. *)
Lemma blocked_run `{World} c s sched : blocked c s → run c sched s = s.
Proof.
  intros Hb. induction sched as [|a sched IH]; simpl; [done|].
  by rewrite (Hb a).
Qed.

(** [DownloadDoc] has not returned in a state that has not panicked and
    where the range loop is not at [return nil]. *)
Lemma DownloadDoc_Running `{World} downloadPath v0 d maxDepth sched initialURL s :
  url_Parse (DocURL d) = Some initialURL →
  run {| DownloadPath := downloadPath; doc := d; maxDepth := maxDepth;
         initialHost := url_Host initialURL |} sched (init v0) = s →
  panicked s = false → main s ≠ MReturn →
  DownloadDoc downloadPath v0 d maxDepth sched = Running s.
Proof.
  intros Hp Hrun Hpn Hm. unfold DownloadDoc. rewrite Hp; simpl.
  rewrite Hrun, Hpn. by destruct (main s).
Qed.

(** C1. A page with 102 links to its own host, and the range loop slow to
    lock after its first receive: the [fetchAndProcess] goroutine fills the
    channel and waits to send the last link while it holds [s.mu]; the range
    loop waits for [s.mu]; [s.wg.Wait()] waits for the counter, which is
    103.  No goroutine can move, the channel is never closed, and
    [DownloadDoc] does not return, whatever is scheduled next. *)
Theorem wide_page_deadlock :
  let w := world (wide 102) in
  let c := example_crawl 1 in
  let s := @run net_url w c eager_worker (init ∅) in
  @blocked net_url w c s
  ∧ main s = MLock {| url := "http://example.test/p"; depth := 1 |}
  ∧ mu s = true ∧ length (queue s) = queue_cap ∧ wg s = 103%nat
  ∧ closed s = false ∧ panicked s = false
  ∧ ∀ sched,
      @DownloadDoc net_url w "/docs" ∅ example_doc 1 (eager_worker ++ sched)
      = Running s.
Proof.
  intros w c s.
  assert (s = eager_worker_end) as Hs by (vm_compute; reflexivity).
  clearbody s. subst s.
  assert (@blocked net_url w c eager_worker_end) as Hb.
  { intros [| |[|i]]; vm_compute; reflexivity. }
  split; [exact Hb|].
  repeat (split; [vm_compute; reflexivity|]).
  intros sched.
  apply (@DownloadDoc_Running net_url w "/docs" ∅ example_doc 1 _
           {| Scheme := "http"; Host := "example.test"; Path := "/";
              Fragment := "" |}).
  - vm_compute; reflexivity.
  - change {| DownloadPath := _ |} with c. rewrite run_app.
    replace (run c eager_worker (init ∅)) with eager_worker_end
      by (vm_compute; reflexivity).
    by apply blocked_run.
  - vm_compute; reflexivity.
  - vm_compute; discriminate.
Qed.

(** Witness of C9: on [two_hosts], the link to [other.test] is among the
    extracted links of [/] and is never fetched nor queued. *)
Lemma other_host_links_witness :
  let w := world two_hosts in
  let c := example_crawl 1 in
  let s := @run net_url w c (round_robin 40 3) (init ∅) in
  let page := document [anchor "/a" "A"; anchor "http://other.test/" "other"] in
  @seed_parsed net_url c
  ∧ resolveURL "http://example.test/" "http://other.test/"
      ∈ extractLinks page "http://example.test/"
  ∧ ("http://other.test/" ∉ url <$> queue s)
  ∧ "http://other.test/" ∉ (fetched (log s)).*1.
Proof.
  intros w c s page.
  destruct (@other_host_links_found_not_followed net_url w c ∅
              (round_robin 40 3) (example_seed_parsed 1)) as [Hfound Hnot].
  split; [exact (example_seed_parsed 1)|]. split.
  - apply (Hfound page (anchor "http://other.test/" "other")
             {| Namespace := ""; Key := "href"; Val := "http://other.test/" |}).
    + apply list_elem_of_In. simpl. auto 10.
    + apply list_elem_of_In. simpl. auto.
    + split; [reflexivity|]. left. split; reflexivity.
    + intros Heq. vm_compute in Heq. discriminate Heq.
  - destruct (Hnot "http://other.test/"
                {| Scheme := "http"; Host := "other.test"; Path := "/";
                   Fragment := "" |}) as (Hq & _ & _ & Hf).
    + vm_compute; reflexivity.
    + intros Heq. vm_compute in Heq. discriminate Heq.
    + split; [exact Hq | exact Hf].
Defined.

(** Witness of C4: on [two_hosts] with [maxDepth = 0], the range loop is at
    the depth test with [/a] at depth 1. *)
Lemma depth_exceeded_task_witness :
  let w := world two_hosts in
  let c := example_crawl 0 in
  let s := @run net_url w c (first_page_done ++ replicate 4 Main) (init ∅) in
  let t := {| url := "http://example.test/a"; depth := 1 |} in
  main s = MDepth t ∧ maxDepth c < depth t
  ∧ visited s (url t) = true
  ∧ let s' := @run net_url w c [Main] s in
    main s' = MRange ∧ wg s = S (wg s') ∧ workers s' = workers s
    ∧ log s' = log s ∧ visitedURLs s' = visitedURLs s ∧ queue s' = queue s.
Proof.
  intros w c s t.
  assert (main s = MDepth t) as Hm by (vm_compute; reflexivity).
  assert (maxDepth c < depth t) as Hd by (vm_compute; reflexivity).
  split; [exact Hm|]. split; [exact Hd|].
  exact (@depth_exceeded_task_claimed_not_fetched net_url w c ∅ _ t Hm Hd).
Defined.

(** Counterexample to C4 as stated: with [maxDepth = 0], the task [/a] of
    depth 1 is taken from the channel while [/a] is not in [visitedURLs];
    when the range loop is back at the channel, nothing new was fetched and
    [/a] is in [visitedURLs]. *)
Lemma depth_exceeded_task_changes_visitedURLs :
  let w := world two_hosts in
  let c := example_crawl 0 in
  let s := @run net_url w c first_page_done (init ∅) in
  let s' := @run net_url w c (replicate 5 Main) s in
  let t := {| url := "http://example.test/a"; depth := 1 |} in
  main s = MLock t ∧ maxDepth c < depth t
  ∧ visited s (url t) = false
  ∧ main s' = MRange ∧ fetched (log s') = fetched (log s)
  ∧ visited s' (url t) = true.
Proof. vm_compute. repeat split. Qed.

(** Witness of C5: on [read_only_disk], the goroutine of the seed is about to
    fetch a page that cannot be written. *)
Lemma storage_error_witness :
  let w := world read_only_disk in
  let c := example_crawl 1 in
  let s := @run net_url w c (Feeder :: replicate 6 Main) (init ∅) in
  let w0 := {| currentURL := "http://example.test/"; currentDepth := 0;
               w_pc := WFetch |} in
  let body := anchors_body [("/a", "A"); ("http://other.test/", "other")] in
  let parsedURL := {| Scheme := "http"; Host := "example.test"; Path := "/";
                      Fragment := "" |} in
  workers s !! 0%nat = Some w0 ∧ w_pc w0 = WFetch
  ∧ http_Get (currentURL w0) = Response http_StatusOK body
  ∧ url_Parse (currentURL w0) = Some parsedURL
  ∧ (os_MkdirAll (filepath_Dir (local_file c parsedURL)) = true
     ∨ ioutil_WriteFile (local_file c parsedURL) body = true)
  ∧ let s' := @run net_url w c [Worker 0; Worker 0] s in
    workers s' = <[0%nat := {| currentURL := currentURL w0;
                               currentDepth := currentDepth w0;
                               w_pc := WExit |}]> (workers s)
    ∧ log s' = log s ++ [EvGet (currentURL w0) (currentDepth w0)]
    ∧ queue s' = queue s ∧ wg s = S (wg s')
    ∧ visitedURLs s' = visitedURLs s.
Proof.
  intros w c s w0 body parsedURL.
  assert (workers s !! 0%nat = Some w0) as Hi by (vm_compute; reflexivity).
  assert (http_Get (currentURL w0) = Response http_StatusOK body) as Hget
    by (vm_compute; reflexivity).
  assert (url_Parse (currentURL w0) = Some parsedURL) as Hparse
    by (vm_compute; reflexivity).
  assert (os_MkdirAll (filepath_Dir (local_file c parsedURL)) = true
          ∨ ioutil_WriteFile (local_file c parsedURL) body = true) as Hfail
    by (right; vm_compute; reflexivity).
  split_and!; [exact Hi|reflexivity|exact Hget|exact Hparse|exact Hfail|].
  exact (@storage_error_ends_task net_url w c ∅ _ 0%nat w0 body parsedURL
           Hi eq_refl Hget Hparse Hfail).
Defined.

(** Counterexample to C5 as stated: on [read_only_disk] the page [/] is
    fetched and parses, [/a] is one of its links and is on the initial host,
    and writing the page fails.  The goroutine ends with nothing sent to the
    channel, and the crawl returns with [/a] neither marked nor fetched. *)
Lemma storage_failure_links_not_enqueued :
  let w := world read_only_disk in
  let c := example_crawl 1 in
  let page := document [anchor "/a" "A"; anchor "http://other.test/" "other"] in
  let body := anchors_body [("/a", "A"); ("http://other.test/", "other")] in
  let s1 := @run net_url w c (Feeder :: replicate 6 Main ++ [Worker 0; Worker 0])
              (init ∅) in
  let s := @run net_url w c (round_robin 40 3) (init ∅) in
  http_Get "http://example.test/" = Response http_StatusOK body
  ∧ html_Parse body = Some page
  ∧ In "http://example.test/a" (extractLinks page "http://example.test/")
  ∧ (url_Host <$> url_Parse "http://example.test/a") = Some (initialHost c)
  ∧ (workers s1 = [{| currentURL := "http://example.test/"; currentDepth := 0;
                      w_pc := WExit |}]
     ∧ queue s1 = [] ∧ wg s1 = 0%nat)
  ∧ main s = MReturn ∧ log s = [EvGet "http://example.test/" 0]
  ∧ visited s "http://example.test/a" = false.
Proof. vm_compute. split_and!; auto. Qed.

End Examples.

Section IndexerExamples.
Import indexer.

Lemma list_bleve_paged_search : @paged_search list_bleve.
Proof.
  intros idx req res [= <-]; simpl.
  match goal with |- context [take ?n ?l] => generalize (take n l) end.
  intros ids. induction ids as [|id ids IH]; [reflexivity|].
  rewrite !fmap_cons, IH. reflexivity.
Defined.

(** Witness of C7: the eleven pages and the query [fox]. *)
Lemma Search_first_ten_witness :
  let i := index_of eleven_foxes in
  let paths := take 10 (fst <$> eleven_foxes) in
  @paged_search list_bleve
  ∧ @Search list_bleve i "fox" = inl paths
  ∧ paths = take 10 (@matching list_bleve i "fox")
  ∧ ((length (@matching list_bleve i "fox") ≤ 10)%nat →
     paths = @matching list_bleve i "fox").
Proof.
  intros i paths.
  assert (@Search list_bleve i "fox" = inl paths) as Hsearch
    by (vm_compute; reflexivity).
  split; [exact list_bleve_paged_search|]. split; [exact Hsearch|].
  exact (@Search_first_ten_matches list_bleve i "fox" paths
           list_bleve_paged_search Hsearch).
Defined.

(** Counterexample to C7 as stated: eleven indexed pages contain [fox];
    [Search] returns ten of them, and the eleventh, which matches, is not
    among them. *)
Lemma Search_misses_eleventh_match :
  let i := index_of eleven_foxes in
  In "docs/ppppppppppp.html" (@matching list_bleve i "fox")
  ∧ ∃ paths, @Search list_bleve i "fox" = inl paths
             ∧ length paths = 10%nat
             ∧ ¬ In "docs/ppppppppppp.html" paths.
Proof.
  split.
  - vm_compute. auto 12.
  - eexists. split; [vm_compute; reflexivity|]. split; [reflexivity|].
    simpl. intros Hin. repeat destruct Hin as [Hin|Hin]; done.
Qed.

End IndexerExamples.

(** ** More about the crawl *)

Section CrawlMore.
Context `{World}.
Variable c : crawl.

Lemma sum_list_with_zero_inv {A} (f : A → nat) (l : list A) :
  sum_list_with f l = 0%nat → Forall (λ x, f x = 0%nat) l.
Proof.
  induction l as [|a l IH]; simpl; intros Hsum; constructor; [lia|].
  apply IH. lia.
Qed.

(** A [fetchAndProcess] goroutine neither closes the channel nor moves the
    range loop. *)
Lemma step_worker_closed i s s' :
  step_worker c i s = Some s' → closed s' = closed s ∧ main s' = main s.
Proof.
  unfold step_worker. intros Hstep.
  destruct (workers s !! i) as [w|]; [|done].
  destruct s as [v m g q cl pm pf ws lg pn], w as [u d pc].
  unfold set_pc, chan_send, mu_Unlock, wg_Done in Hstep; simpl in *.
  destruct pc; simpl in *;
    try destruct (fetch_page c u d) as [evs pc0]; simpl in *;
    repeat case_match; simplify_eq/=; done.
Qed.

Lemma return_inv_step a s s' :
  return_inv s → step c a s = Some s' → return_inv s'.
Proof.
  intros Hr Hstep. unfold return_inv, step in *.
  destruct (panicked s); [done|]. destruct a as [| |i].
  - destruct s as [v m g q cl pm pf ws lg pn]; simpl in *.
    unfold step_main, mu_Unlock, wg_Done in Hstep; simpl in Hstep.
    destruct pm; simpl in *; repeat case_match; simplify_eq/=; done.
  - destruct s as [v m g q cl pm pf ws lg pn]; simpl in *.
    unfold step_feeder, chan_send in Hstep; simpl in Hstep.
    destruct pf; simpl in *; repeat case_match; simplify_eq/=; done.
  - apply step_worker_closed in Hstep as [-> ->]. done.
Qed.

Lemma return_inv_run v0 sched : return_inv (run c sched (init v0)).
Proof. apply run_invariant; [apply return_inv_step | done]. Qed.

(** X2. Under every schedule at most one goroutine is between
    [s.mu.Lock()] and [s.mu.Unlock()], and the mutex is locked exactly when
    one is. *)
Theorem mutex_held_by_at_most_one v0 sched :
  let s := run c sched (init v0) in
  (lock_holders s ≤ 1)%nat ∧ (mu s = true ↔ lock_holders s = 1%nat).
Proof.
  intros s. destruct (sync_inv_run c v0 sched) as [_ _ Hmu _ _].
  fold s in Hmu. destruct (mu s); split; try lia; split; (done || lia).
Qed.

(** X3. The channel is closed only when no task is left: the counter is 0,
    the channel is empty, the range loop holds no task and every
    [fetchAndProcess] goroutine has returned; and [DownloadDoc] returns only
    after the channel was closed. *)
Theorem closed_when_all_done v0 sched :
  let s := run c sched (init v0) in
  (closed s = true →
     wg s = 0%nat ∧ queue s = [] ∧ main_task (main s) = None
     ∧ Forall exited (workers s))
  ∧ (main s = MReturn → closed s = true).
Proof.
  intros s. split; [|apply return_inv_run].
  destruct (sync_inv_run c v0 sched) as [_ Hwg _ Hw Hc]. fold s in Hwg, Hw, Hc.
  intros Hcl. apply Hc in Hcl. specialize (Hw (or_intror Hcl)).
  rewrite Hw in Hwg. unfold outstanding in Hwg.
  assert (sum_list_with worker_holds (workers s) = 0%nat) as Hsum by lia.
  split_and!; [done| | |].
  - destruct (queue s); [done|simpl in Hwg; lia].
  - destruct (main s); simpl in *; (done || lia).
  - apply sum_list_with_zero_inv in Hsum.
    eapply Forall_impl; [exact Hsum|]. intros w Hw0.
    unfold exited, worker_holds in *. by destruct (w_pc w).
Qed.

(** A step never unmarks a URL. *)
Lemma visited_step a s s' u :
  visited s u = true → step c a s = Some s' → visited s' u = true.
Proof.
  intros Hv Hstep. unfold step in Hstep.
  destruct (panicked s); [done|]. destruct a as [| |i].
  - destruct s as [v m g q cl pm pf ws lg pn]; unfold visited in *; simpl in *.
    unfold step_main, mu_Unlock, wg_Done, visited in Hstep; simpl in Hstep.
    destruct pm; simpl in *; repeat case_match; simplify_eq/=; try done.
    rewrite lookup_insert. by case_decide.
  - destruct s as [v m g q cl pm pf ws lg pn]; unfold visited in *; simpl in *.
    unfold step_feeder, chan_send in Hstep; simpl in Hstep.
    destruct pf; simpl in *; repeat case_match; simplify_eq/=; done.
  - apply step_worker_frame in Hstep as (_ & _ & _ & _ & _ & Hvis & _).
    unfold visited. by rewrite Hvis.
Qed.

(** X4. [visitedURLs] only grows: a URL that is marked stays marked,
    whatever runs afterwards. *)
Theorem visitedURLs_append_only s sched u :
  visited s u = true → visited (run c sched s) u = true.
Proof.
  intros Hv. apply (run_invariant c (λ s, visited s u = true)); [|done].
  intros a s1 s2 Hs1 Hstep. by eapply visited_step.
Qed.

Lemma idle_worker_blocked P s i : idle_inv P s → step_worker c i s = None.
Proof. intros [Hws _ _ _]. unfold step_worker. by rewrite Hws. Qed.

Lemma revisit_inv_step a s s' :
  revisit_inv c s → step c a s = Some s' → revisit_inv c s'.
Proof.
  intros [[Hws Hlg Hq Hm] Hseed Hpc] Hstep.
  pose proof (visited_step a s s' _ Hseed Hstep) as Hseed'.
  unfold step in Hstep. destruct (panicked s); [done|]. destruct a as [| |i].
  - destruct s as [v m g q cl pm pf ws lg pn]; simpl in *.
    unfold step_main, mu_Unlock, wg_Done in Hstep; simpl in Hstep.
    destruct pm; simpl in *;
      try (by destruct (Hpc current) as (? & ? & ?));
      repeat case_match; simplify_eq/=;
      try (split; [split|done|]; simpl; try done;
           try (by inversion Hq);
           try (intros ? [= <-]; by inversion Hq);
           intros ?; split_and!; done).
    (* the test finds the seed marked *)
    specialize (Hm _ eq_refl). unfold visited in *; simpl in *. congruence.
  - destruct s as [v m g q cl pm pf ws lg pn]; simpl in *.
    unfold step_feeder, chan_send in Hstep; simpl in Hstep.
    destruct pf; simpl in *; repeat case_match; simplify_eq/=;
      (split; [split|done|done]; simpl; try done).
    apply Forall_app; split; [done|]. by repeat constructor.
  - by rewrite (idle_worker_blocked _ s i (Build_idle_inv _ _ Hws Hlg Hq Hm))
      in Hstep.
Qed.

(** X5. A crawl whose seed is already marked in [visitedURLs] (a second
    [DownloadDoc] on the same [Scraper]) starts no goroutine and fetches
    nothing, under every schedule. *)
Theorem marked_seed_fetches_nothing v0 sched :
  default false (v0 !! DocURL (doc c)) = true →
  let s := run c sched (init v0) in
  workers s = [] ∧ log s = [].
Proof.
  intros Hseed s.
  assert (revisit_inv c s) as [[Hws Hlg _ _] _ _]; [|done].
  apply run_invariant; [apply revisit_inv_step|].
  split; [split|done|]; simpl; done.
Qed.

Lemma idle_depth_step a s s' :
  maxDepth c < 0 →
  idle_inv (λ t, depth t = 0) s → step c a s = Some s' →
  idle_inv (λ t, depth t = 0) s'.
Proof.
  intros Hneg [Hws Hlg Hq Hm] Hstep.
  unfold step in Hstep. destruct (panicked s) eqn:Hpn; [done|].
  destruct a as [| |i].
  - destruct s as [v m g q cl pm pf ws lg pn]; simpl in *.
    unfold step_main, mu_Unlock, wg_Done in Hstep; simpl in Hstep.
    destruct pm; simpl in *; repeat case_match; simplify_eq/=;
      try (split; simpl; try done;
           try (by inversion Hq);
           try (intros ? [= <-]; by inversion Hq); eauto).
    (* the seed is deeper than a negative [maxDepth] *)
    specialize (Hm _ eq_refl).
    match goal with Hd : (maxDepth c <? _) = false |- _ =>
      apply Z.ltb_ge in Hd; lia end.
  - destruct s as [v m g q cl pm pf ws lg pn]; simpl in *.
    unfold step_feeder, chan_send in Hstep; simpl in Hstep.
    destruct pf; simpl in *; repeat case_match; simplify_eq/=;
      (split; simpl; try done).
    apply Forall_app; split; [done|]. by repeat constructor.
  - by rewrite (idle_worker_blocked _ s i (Build_idle_inv _ _ Hws Hlg Hq Hm))
      in Hstep.
Qed.

(** X6. With a negative [maxDepth] no goroutine is started and nothing is
    fetched, not even the seed, under every schedule. *)
Theorem negative_maxDepth_fetches_nothing v0 sched :
  maxDepth c < 0 →
  let s := run c sched (init v0) in
  workers s = [] ∧ log s = [].
Proof.
  intros Hneg s.
  assert (idle_inv (λ t, depth t = 0) s) as [Hws Hlg _ _]; [|done].
  apply run_invariant; [intros ????; by eapply idle_depth_step|].
  split; simpl; done.
Qed.

Lemma int_add_succ d : 0 ≤ d < 2 ^ 63 - 1 → int_add d 1 = d + 1.
Proof. intros Hd. unfold int_add. rewrite Z.mod_small; lia. Qed.

Lemma range_inv_step a s s' :
  maxDepth c < 2 ^ 63 - 1 →
  range_inv c s → step c a s = Some s' → range_inv c s'.
Proof.
  intros Hmax [Hq Hm Hws] Hstep. unfold step in Hstep.
  destruct s as [v m g q cl pm pf ws lg pn]; simpl in *.
  destruct pn; [done|]. destruct a as [| |i].
  - unfold step_main, mu_Unlock, wg_Done in Hstep; simpl in Hstep.
    destruct pm; simpl in *;
      repeat case_match; simplify_eq/=; split; simpl; try done; eauto;
      try (by inversion Hq).
    + intros ? [= <-]. by inversion Hq.
    + apply Forall_app; split; [done|]. repeat constructor; simpl.
      * by apply (Hm _ eq_refl).
      * match goal with Hd : (maxDepth c <? _) = false |- _ =>
          apply Z.ltb_ge in Hd; lia end.
  - unfold step_feeder, chan_send in Hstep; simpl in Hstep.
    destruct pf; simpl in *;
      repeat case_match; simplify_eq/=; split; simpl; try done.
    apply Forall_app; split; [done|]. repeat constructor; simpl; lia.
  - unfold step_worker in Hstep; simpl in Hstep.
    destruct (ws !! i) as [w|] eqn:Hi; [|done].
    pose proof (Forall_lookup_1 _ _ _ _ Hws Hi) as Hwd.
    destruct w as [u d pc]; simpl in *.
    unfold set_pc, chan_send, mu_Unlock, wg_Done in Hstep; simpl in Hstep.
    destruct pc; simpl in *;
      try destruct (fetch_page c u d) as [evs pc0]; simpl in *;
      repeat case_match; simplify_eq/=;
      split; simpl; try done;
      try (by apply Forall_insert).
    apply Forall_app; split; [done|]. repeat constructor; simpl;
      rewrite int_add_succ by lia; lia.
Qed.

(** X7. When [maxDepth] is below the largest [int], [depth + 1] never wraps:
    every task in the channel or in the hands of the range loop has a depth
    between 0 and [maxDepth + 1] (0 for the seed), and every
    [fetchAndProcess] goroutine runs at a depth between 0 and [maxDepth]. *)
Theorem depths_in_range v0 sched :
  maxDepth c < 2 ^ 63 - 1 →
  let s := run c sched (init v0) in
  Forall (λ t, 0 ≤ depth t ≤ Z.max 0 (maxDepth c + 1)) (queue s)
  ∧ (∀ t, main_task (main s) = Some t → 0 ≤ depth t ≤ Z.max 0 (maxDepth c + 1))
  ∧ Forall (λ w, 0 ≤ currentDepth w ≤ maxDepth c) (workers s).
Proof.
  intros Hmax s.
  assert (range_inv c s) as [Hq Hm Hws]; [|done].
  apply run_invariant; [intros ????; by eapply range_inv_step|].
  split; simpl; (done || constructor).
Qed.

(** When the page of a goroutine ends in a [return], its next two steps are
    the fetch and the deferred [wg.Done]. *)
Lemma worker_returns s i w evs :
  sync_inv s → workers s !! i = Some w → w_pc w = WFetch →
  fetch_page c (currentURL w) (currentDepth w) = (evs, WDefer) →
  let s' := run c [Worker i; Worker i] s in
  workers s' = <[i := {| currentURL := currentURL w;
                         currentDepth := currentDepth w;
                         w_pc := WExit |}]> (workers s)
  ∧ log s' = log s ++ evs
  ∧ queue s' = queue s ∧ wg s = S (wg s')
  ∧ visitedURLs s' = visitedURLs s.
Proof.
  intros Hsync Hi Hpc Hfetch.
  pose proof (inv_no_panic s Hsync) as Hp.
  assert (∃ n, wg s = S n) as [n Hn].
  { destruct Hsync as [_ Hwg _ _ _]. unfold outstanding in Hwg.
    pose proof (sum_list_with_in w worker_holds (workers s)
                  (list_elem_of_lookup_2 _ _ _ Hi)) as Hge.
    unfold worker_holds at 1 in Hge. rewrite Hpc in Hge.
    destruct (wg s) as [|n]; [lia|eauto]. }
  assert (i < length (workers s))%nat as Hlt by (by eapply lookup_lt_Some).
  clear Hsync.
  destruct s as [v m g q cl pm pf ws lg pn], w as [u d pc]; simpl in *; subst.
  unfold step, step_worker; simpl. rewrite Hi; simpl. rewrite Hfetch; simpl.
  rewrite list_lookup_insert_eq by done; simpl.
  by rewrite list_insert_insert_eq.
Qed.

(** X8. When [http.Get] fails, the body cannot be read or the status is not
    200, [fetchAndProcess] returns: the deferred [wg.Done] marks the task
    done, nothing is saved or indexed, and nothing is sent to the channel. *)
Theorem failed_fetch_ends_task v0 sched i w :
  let s := run c sched (init v0) in
  workers s !! i = Some w → w_pc w = WFetch →
  (∀ body, http_Get (currentURL w) ≠ Response http_StatusOK body) →
  let s' := run c [Worker i; Worker i] s in
  workers s' = <[i := {| currentURL := currentURL w;
                         currentDepth := currentDepth w;
                         w_pc := WExit |}]> (workers s)
  ∧ log s' = log s ++ [EvGet (currentURL w) (currentDepth w)]
  ∧ queue s' = queue s ∧ wg s = S (wg s')
  ∧ visitedURLs s' = visitedURLs s.
Proof.
  intros s Hi Hpc Hget. apply worker_returns; try done.
  - apply sync_inv_run.
  - unfold fetch_page. destruct (http_Get (currentURL w)) as [| |code body];
      try done.
    destruct (code =? http_StatusOK) eqn:Hcode; [|done].
    apply Z.eqb_eq in Hcode. subst. by destruct (Hget body).
Qed.

Lemma marked_inv_step v0 a s s' :
  host_inv c s → marked_inv c v0 s → step c a s = Some s' → marked_inv c v0 s'.
Proof.
  intros [_ _ Hm _ _] Hmk Hstep. unfold marked_inv, step in *.
  destruct (panicked s); [done|]. destruct a as [| |i].
  - destruct s as [v m g q cl pm pf ws lg pn]; unfold visited in *; simpl in *.
    unfold step_main, mu_Unlock, wg_Done, visited in Hstep; simpl in Hstep.
    destruct pm; simpl in *; repeat case_match; simplify_eq/=; try done.
    intros u. rewrite lookup_insert. case_decide; [|by apply Hmk].
    subst u. intros _. right. by apply Hm.
  - destruct s as [v m g q cl pm pf ws lg pn]; unfold visited in *; simpl in *.
    unfold step_feeder, chan_send in Hstep; simpl in Hstep.
    destruct pf; simpl in *; repeat case_match; simplify_eq/=; done.
  - apply step_worker_frame in Hstep as (_ & _ & _ & _ & _ & Hvis & _).
    unfold visited in *. by rewrite Hvis.
Qed.

(** X9. A crawl marks URLs of the initial host only: whatever is marked in
    [visitedURLs] was marked before the crawl or parses with the initial
    host; and every URL that was fetched is marked. *)
Theorem marked_on_initial_host v0 sched :
  seed_parsed c →
  let s := run c sched (init v0) in
  (∀ u, visited s u = true → default false (v0 !! u) = true ∨ in_domain c u)
  ∧ (∀ u, u ∈ (fetched (log s)).*1 → visited s u = true).
Proof.
  intros Hseed s. split.
  - assert (host_inv c s ∧ marked_inv c v0 s) as [_ Hmk]; [|done].
    apply (run_invariant c (λ s, host_inv c s ∧ marked_inv c v0 s)).
    + intros a s1 s2 [Hh Hmk] Hstep. split.
      * by eapply host_inv_step.
      * by eapply marked_inv_step.
    + split; [by apply host_inv_init|]. intros u Hu. by left.
  - destruct (once_inv_run c v0 sched) as [Hv _ _ _ Hf _].
    fold s in Hv, Hf. intros u Hu.
    destruct (Hf u Hu) as (i & w & Hi & <- & _).
    rewrite Forall_forall in Hv. apply Hv. by eapply list_elem_of_lookup_2.
Qed.

(** The events of one page. *)
Lemma fetch_page_indexed u d filePath plainText :
  EvIndexed filePath plainText ∈ (fetch_page c u d).1 →
  ∃ body parsedURL htmlDoc,
    http_Get u = Response http_StatusOK body
    ∧ url_Parse u = Some parsedURL
    ∧ filePath = local_file c parsedURL
    ∧ EvSaved filePath body ∈ (fetch_page c u d).1
    ∧ html_Parse body = Some htmlDoc
    ∧ plainText = extractText htmlDoc.
Proof.
  unfold fetch_page.
  destruct (http_Get u) as [|code|code body] eqn:Hget; simpl;
    try (intros Hin; apply list_elem_of_In in Hin; simpl in Hin;
         by intuition discriminate).
  destruct (code =? http_StatusOK) eqn:Hcode; simpl;
    [apply Z.eqb_eq in Hcode; subst code|];
    try (intros Hin; apply list_elem_of_In in Hin; simpl in Hin;
         by intuition discriminate).
  destruct (url_Parse u) as [parsedURL|] eqn:Hparse; simpl;
    try (intros Hin; apply list_elem_of_In in Hin; simpl in Hin;
         by intuition discriminate).
  destruct (os_MkdirAll _); simpl;
    try (intros Hin; apply list_elem_of_In in Hin; simpl in Hin;
         by intuition discriminate).
  destruct (ioutil_WriteFile _ _); simpl;
    try (intros Hin; apply list_elem_of_In in Hin; simpl in Hin;
         by intuition discriminate).
  destruct (html_Parse body) as [htmlDoc|] eqn:Hhtml; simpl;
    try (intros Hin; apply list_elem_of_In in Hin; simpl in Hin;
         by intuition discriminate).
  intros Hin. apply list_elem_of_In in Hin; simpl in Hin.
  destruct Hin as [?|[?|[Heq|[]]]]; try discriminate.
  injection Heq as <- <-. exists body, parsedURL, htmlDoc.
  split_and!; try done. apply list_elem_of_In; simpl; auto.
Qed.

Lemma fetch_page_get u d : EvGet u d ∈ (fetch_page c u d).1.
Proof.
  unfold fetch_page. repeat case_match; simpl;
    apply list_elem_of_In; simpl; auto.
Qed.

(** What a step adds to the log: nothing, or the events of the page of a
    goroutine. *)
Lemma step_log a s s' :
  step c a s = Some s' →
  log s' = log s
  ∨ ∃ u d, log s' = log s ++ (fetch_page c u d).1
           ∧ EvGet u d ∈ (fetch_page c u d).1.
Proof.
  intros Hstep. unfold step in Hstep.
  destruct s as [v m g q cl pm pf ws lg pn]; simpl in *.
  destruct pn; [done|]. destruct a as [| |i].
  - unfold step_main, mu_Unlock, wg_Done in Hstep; simpl in Hstep.
    destruct pm; simpl in *; repeat case_match; simplify_eq/=; by left.
  - unfold step_feeder, chan_send in Hstep; simpl in Hstep.
    destruct pf; simpl in *; repeat case_match; simplify_eq/=; by left.
  - unfold step_worker in Hstep; simpl in Hstep.
    destruct (ws !! i) as [[u d pc]|]; [|done].
    unfold set_pc, chan_send, mu_Unlock, wg_Done in Hstep; simpl in Hstep.
    destruct pc; simpl in *;
      try destruct (fetch_page c u d) as [evs pc0] eqn:Hfp; simpl in *;
      repeat case_match; simplify_eq/=; try (by left).
    right. exists u, d. pose proof (fetch_page_get u d) as Hg.
    rewrite Hfp in *; simpl in *. by split.
Qed.

Lemma indexed_inv_step a s s' :
  indexed_inv c s → step c a s = Some s' → indexed_inv c s'.
Proof.
  intros Hinv Hstep.
  destruct (step_log a s s' Hstep) as [Hlog|(u & d & Hlog & Hget)];
    unfold indexed_inv; rewrite Hlog; [done|].
  intros filePath plainText [Hin|Hin]%elem_of_app.
  - destruct (Hinv _ _ Hin)
      as (u' & d' & body & parsedURL & htmlDoc & ? & ? & ? & ? & ? & ? & ?).
    exists u', d', body, parsedURL, htmlDoc.
    split_and!; try done; apply elem_of_app; by left.
  - destruct (fetch_page_indexed _ _ _ _ Hin)
      as (body & parsedURL & htmlDoc & ? & ? & ? & ? & ? & ?).
    exists u, d, body, parsedURL, htmlDoc.
    split_and!; try done; apply elem_of_app; by right.
Qed.

(** X10. Only pages that were fetched with status 200, written to their
    local file and parsed get into the index, under that file and with the
    text [extractText] gives for the parsed body. *)
Theorem indexed_pages_were_saved v0 sched filePath plainText :
  let s := run c sched (init v0) in
  EvIndexed filePath plainText ∈ log s →
  ∃ u d body parsedURL htmlDoc,
    EvGet u d ∈ log s
    ∧ http_Get u = Response http_StatusOK body
    ∧ url_Parse u = Some parsedURL
    ∧ filePath = local_file c parsedURL
    ∧ EvSaved filePath body ∈ log s
    ∧ html_Parse body = Some htmlDoc
    ∧ plainText = extractText htmlDoc.
Proof.
  intros s. revert filePath plainText.
  change (indexed_inv c s). apply run_invariant; [apply indexed_inv_step|].
  intros ? ? Hin. by apply elem_of_nil in Hin.
Qed.

Lemma run_step a sched s s' :
  step c a s = Some s' → run c (a :: sched) s = run c sched s'.
Proof. intros Hstep. simpl. by rewrite Hstep. Qed.

#[local] Opaque queue_cap int_add.

(** One step of goroutine [i] from a state written out field by field; [tac]
    rewrites with what decides the branch. *)
Ltac worker_step tac :=
  etrans;
  [apply run_step; unfold step, step_worker; simpl; tac;
   unfold set_pc, mu_Unlock, chan_send,
     with_workers, with_mu, with_wg, with_queue; simpl;
   try tac; reflexivity|].

(** The loop over the links, with the goroutine running alone. *)
Lemma link_loop_run i u d links :
  ∀ v g q pm pf ws lg,
    ws !! i = Some {| currentURL := u; currentDepth := d; w_pc := WLoop links |} →
    let s := {| visitedURLs := v; mu := false; wg := g; queue := q;
                closed := false; main := pm; feeder := pf; workers := ws;
                log := lg; panicked := false |} in
    (length q + length (followed c s links) ≤ queue_cap)%nat →
    ∃ n, run c (replicate n (Worker i)) s
         = {| visitedURLs := v; mu := false;
              wg := g + length (followed c s links);
              queue := q ++ link_tasks d (followed c s links);
              closed := false; main := pm; feeder := pf;
              workers := <[i := {| currentURL := u; currentDepth := d;
                                   w_pc := WDefer |}]> ws;
              log := lg; panicked := false |}.
Proof.
  induction links as [|link rest IH]; intros v g q pm pf ws lg Hi s Hcap;
    subst s; unfold followed, visited in *; cbn [visitedURLs] in *.
  - exists 1%nat. cbn [replicate].
    worker_step ltac:(rewrite Hi).
    simpl. by rewrite Nat.add_0_r, app_nil_r.
  - assert (i < length ws)%nat as Hlt by (by eapply lookup_lt_Some).
    pose proof (list_lookup_insert_eq ws i
                  {| currentURL := u; currentDepth := d; w_pc := WLoop rest |}
                  Hlt) as Hi1.
    cbn [List.filter] in *.
    set (sent := List.filter _ rest) in *.
    destruct (on_initial_host c link) eqn:Hon; unfold on_initial_host in Hon.
    2: { (* the link does not parse or has another host *)
      destruct (IH v g q pm pf _ lg Hi1) as [n Hn]; [done|].
      exists (S n). cbn [replicate].
      worker_step ltac:(rewrite Hi; simpl;
                        destruct (url_Parse link); [rewrite Hon|]).
      rewrite Hn. by rewrite list_insert_insert_eq. }
    destruct (url_Parse link) as [parsedLink|] eqn:Hparse; [|done].
    destruct (default false (v !! link)) eqn:Hvis; cbn [andb negb] in *.
    + (* marked already: Lock, test, Unlock *)
      destruct (IH v g q pm pf _ lg Hi1) as [n Hn]; [done|].
      exists (S (S (S n))). cbn [replicate].
      worker_step ltac:(rewrite Hi; simpl; rewrite Hparse, Hon).
      worker_step ltac:(rewrite list_lookup_insert_eq by done; simpl;
                        unfold visited; simpl; rewrite Hvis).
      worker_step ltac:(rewrite list_lookup_insert_eq
                          by (by rewrite length_insert)).
      rewrite !list_insert_insert_eq. rewrite Hn.
      by rewrite list_insert_insert_eq.
    + (* Lock, test, wg.Add, send, Unlock *)
      simpl in Hcap.
      destruct (IH v (S g) (q ++ [{| url := link; depth := int_add d 1 |}])
                  pm pf _ lg Hi1) as [n Hn].
      { rewrite length_app; simpl. fold sent. lia. }
      assert ((length q <? queue_cap)%nat = true) as Hroom
        by (apply Nat.ltb_lt; lia).
      exists (S (S (S (S (S n))))). cbn [replicate].
      worker_step ltac:(rewrite Hi; simpl; rewrite Hparse, Hon).
      worker_step ltac:(rewrite list_lookup_insert_eq by done; simpl;
                        unfold visited; simpl; rewrite Hvis).
      worker_step ltac:(rewrite list_lookup_insert_eq
                          by (by rewrite length_insert)).
      worker_step ltac:(first [rewrite list_lookup_insert_eq
                                 by (by rewrite !length_insert)
                              | rewrite Hroom]).
      worker_step ltac:(rewrite list_lookup_insert_eq
                          by (by rewrite !length_insert)).
      rewrite !list_insert_insert_eq. rewrite Hn. fold sent.
      rewrite list_insert_insert_eq, <-app_assoc; simpl.
      by rewrite Nat.add_succ_r.
Qed.

(** X11. The loop over the links of a page, when no other goroutine runs in
    between and the channel has room: it sends one task at depth + 1 for
    every occurrence of a link that parses, has the initial host and is not
    marked, in the order of the page and without removing duplicates; it
    adds as much to the counter, and leaves [visitedURLs] and the mutex as
    they were. *)
Theorem link_loop_sends_unmarked_links s i w links :
  workers s !! i = Some w → w_pc w = WLoop links →
  mu s = false → closed s = false → panicked s = false →
  (length (queue s) + length (followed c s links) ≤ queue_cap)%nat →
  ∃ n, let s' := run c (replicate n (Worker i)) s in
       queue s' = queue s ++ link_tasks (currentDepth w) (followed c s links)
       ∧ wg s' = (wg s + length (followed c s links))%nat
       ∧ workers s' = <[i := {| currentURL := currentURL w;
                                currentDepth := currentDepth w;
                                w_pc := WDefer |}]> (workers s)
       ∧ visitedURLs s' = visitedURLs s ∧ mu s' = false ∧ log s' = log s.
Proof.
  intros Hi Hpc Hmu Hcl Hpn Hcap.
  destruct s as [v m g q cl pm pf ws lg pn], w as [u d pc];
    simpl in *; subst.
  destruct (link_loop_run i u d links v g q pm pf ws lg Hi Hcap) as [n Hn].
  exists n. simpl. by rewrite Hn.
Qed.

#[local] Transparent queue_cap int_add.

End CrawlMore.

(** ** More about the extractor *)

Section ExtractorMore.
Context `{NetURL}.

Lemma attr_links_elem_inv wanted baseURL attrs u :
  u ∈ attr_links wanted baseURL attrs [] →
  ∃ a, a ∈ attrs ∧ wanted a = true ∧ u = resolveURL baseURL (Val a) ∧ u ≠ "".
Proof.
  induction attrs as [|a attrs IH]; simpl.
  - intros Hu. by apply elem_of_nil in Hu.
  - rewrite attr_links_app. intros [Hu|Hu]%elem_of_app.
    + destruct (wanted a) eqn:Hw; [|by apply elem_of_nil in Hu].
      destruct (String.eqb (resolveURL baseURL (Val a)) "") eqn:He;
        [by apply elem_of_nil in Hu|].
      apply list_elem_of_singleton in Hu. subst u.
      exists a. split_and!; [by left|done|done|by apply String.eqb_neq].
    + destruct (IH Hu) as (a' & ? & ? & ? & ?). exists a'.
      split_and!; try done. by right.
Qed.

Lemma own_links_elem_inv n baseURL u :
  u ∈ own_links n baseURL →
  ∃ a, a ∈ Attr n ∧ link_attribute n a
       ∧ u = resolveURL baseURL (Val a) ∧ u ≠ "".
Proof.
  unfold own_links, link_attribute.
  destruct (bool_decide (Type_ n = ElementNode)) eqn:Ht;
    [apply bool_decide_eq_true in Ht|intros Hu; by apply elem_of_nil in Hu].
  destruct (String.eqb (Data n) "a") eqn:Ha.
  { apply String.eqb_eq in Ha.
    intros (a & Hin & Hw & Hu & Hne)%attr_links_elem_inv.
    apply String.eqb_eq in Hw. exists a. split_and!; try done. by left. }
  destruct (String.eqb (Data n) "img" || String.eqb (Data n) "script"
            || String.eqb (Data n) "link") eqn:Hd;
    [|intros Hu; by apply elem_of_nil in Hu].
  intros (a & Hin & Hw & Hu & Hne)%attr_links_elem_inv.
  exists a. split_and!; try done.
  destruct (String.eqb (Data n) "link") eqn:Hl; simpl in Hw.
  - rewrite orb_false_r in Hw.
    apply String.eqb_eq in Hl, Hw. right. by left.
  - apply String.eqb_eq in Hw. right. right. split; [|done].
    rewrite orb_false_r in Hd. apply orb_true_iff in Hd as [Hd|Hd];
      apply String.eqb_eq in Hd; auto.
Qed.

(** The links of a tree are the links of its nodes, in document order. *)
Lemma extractLinks_nodes n baseURL :
  extractLinks n baseURL = flat_map (λ m, own_links m baseURL) (nodes n).
Proof.
  induction n as [t d a cs IH] using Node_tree_ind.
  rewrite extractLinks_unfold. cbn [nodes Children flat_map]. f_equal.
  induction IH as [|ch cs Hch _ IHcs]; simpl; [done|].
  by rewrite flat_map_app, Hch, IHcs.
Qed.

(** X12. [extractLinks] returns nothing but resolved link attributes: every
    string it returns is the non-empty resolved value of an [href] of an [a]
    or [link] element or of a [src] of an [img] or [script] element of the
    page; an attribute whose value does not resolve contributes nothing. *)
Theorem extractLinks_only_link_attributes n baseURL u :
  u ∈ extractLinks n baseURL →
  ∃ m a, m ∈ nodes n ∧ a ∈ Attr m ∧ link_attribute m a
         ∧ u = resolveURL baseURL (Val a) ∧ u ≠ "".
Proof.
  rewrite extractLinks_nodes.
  intros Hu. apply list_elem_of_In, in_flat_map in Hu as (m & Hm & Hu).
  apply list_elem_of_In, own_links_elem_inv in Hu as (a & ? & ? & ? & ?).
  exists m, a. split_and!; try done. by apply list_elem_of_In.
Qed.

(** X13. With a base URL that does not parse, [extractLinks] returns no link
    at all, whatever the page. *)
Theorem extractLinks_unparsable_base n baseURL :
  url_Parse baseURL = None → extractLinks n baseURL = [].
Proof.
  intros Hbase.
  destruct (extractLinks n baseURL) as [|u us] eqn:Hl; [done|].
  exfalso.
  assert (u ∈ extractLinks n baseURL) as Hu by (rewrite Hl; by left).
  rewrite extractLinks_nodes in Hu.
  apply list_elem_of_In, in_flat_map in Hu as (m & _ & Hu).
  apply list_elem_of_In, own_links_elem_inv in Hu as (a & _ & _ & Hres & Hne).
  unfold resolveURL in Hres. rewrite Hbase in Hres. done.
Qed.

End ExtractorMore.

(** X14. The text of a node is put together from its children: a [script]
    or [style] element gives the empty string, a text node gives its data,
    and any other node gives the texts of its children, one after the
    other. *)
Theorem extractText_children t d a cs :
  extractText (MkNode t d a cs)
  = if non_rendering (MkNode t d a cs) then ""
    else (if bool_decide (t = TextNode) then d else "")
         +:+ foldr String.append "" (extractText <$> cs).
Proof.
  assert (∀ n b, extractText_f n b = b +:+ extractText n) as Hf.
  { intros n b. unfold extractText.
    revert b. induction n as [t' d' a' cs' IH] using Node_tree_ind; intros b.
    cbn [extractText_f].
    assert (∀ b1 b2,
      (fix siblings (cs : list Node) (b : string) : string :=
         match cs with
         | [] => b
         | ch :: cs'' => siblings cs'' (extractText_f ch b)
         end) cs' (b1 +:+ b2)
      = b1 +:+
        (fix siblings (cs : list Node) (b : string) : string :=
           match cs with
           | [] => b
           | ch :: cs'' => siblings cs'' (extractText_f ch b)
           end) cs' b2) as Hs.
    { induction IH as [|ch cs'' Hch _ IHcs]; intros b1 b2; [done|].
      simpl. rewrite (Hch (b1 +:+ b2)), (Hch b2), append_assoc. apply IHcs. }
    destruct (bool_decide (t' = TextNode)); destruct (_ && _);
      rewrite ?append_empty_l, ?append_empty_r; try done;
      rewrite <-?Hs, ?append_empty_r; done. }
  unfold extractText at 1. cbn [extractText_f]. unfold non_rendering; simpl.
  destruct (bool_decide (t = ElementNode) && _) eqn:Hnr.
  { destruct t; try done. }
  rewrite append_empty_l.
  generalize (if bool_decide (t = TextNode) then d else "") as b.
  clear Hnr. induction cs as [|ch cs IH]; intros b; simpl.
  - by rewrite append_empty_r.
  - rewrite IH, Hf. by rewrite append_assoc.
Qed.

(** ** The local file *)

Lemma bytes_append (a b : string) : bytes (a +:+ b) = bytes a ++ bytes b.
Proof.
  unfold bytes. induction a as [|ch a IH]; [done|].
  rewrite append_cons. simpl. by rewrite IH.
Qed.

Lemma strings_ReplaceAll_gone (s : string) (old : ascii) (new : string) :
  old ∉ bytes new → old ∉ bytes (strings_ReplaceAll s old new).
Proof.
  intros Hnew. induction s as [|ch s IH]; simpl.
  - unfold bytes; simpl. apply not_elem_of_nil.
  - destruct (Ascii.eqb ch old) eqn:Heq.
    + rewrite bytes_append. intros [?|?]%elem_of_app; done.
    + apply Ascii.eqb_neq in Heq. unfold bytes in *; simpl.
      intros [?|?]%elem_of_cons; [congruence|done].
Qed.

Section LocalFileFacts.
Context `{World}.
Variable c : crawl.

(** X15. The local file of a page is the download path, the name and the
    version of the documentation and a relative path that is never empty
    and holds no colon. *)
Theorem local_file_relative_path (parsedURL : URL) :
  local_file c parsedURL
  = filepath_Join [DownloadPath c; Name (doc c); Version (doc c);
                   relative_path c parsedURL]
  ∧ relative_path c parsedURL ≠ ""
  ∧ ":"%char ∉ bytes (relative_path c parsedURL).
Proof.
  split; [reflexivity|]. unfold relative_path.
  set (r := strings_ReplaceAll _ ":" "_").
  assert (":"%char ∉ bytes r) as Hr.
  { apply strings_ReplaceAll_gone. unfold bytes; simpl.
    intros [?|?%elem_of_nil]%elem_of_cons; done. }
  assert (∀ tail, tail ≠ "" → r +:+ tail ≠ "") as Hne.
  { intros tail Htail Heq. destruct r; [done|]. by rewrite append_cons in Heq. }
  assert (∀ tail, ":"%char ∉ bytes tail → ":"%char ∉ bytes (r +:+ tail))
    as Hcolon.
  { intros tail Htail. rewrite bytes_append.
    intros [?|?]%elem_of_app; done. }
  destruct (strings_HasSuffix r "/" || String.eqb r "") eqn:Hfirst.
  - split; [by apply Hne|]. apply Hcolon. unfold bytes; simpl.
    rewrite !not_elem_of_cons. split_and!; try done. apply not_elem_of_nil.
  - apply orb_false_iff in Hfirst as [_ Hempty].
    apply String.eqb_neq in Hempty.
    destruct (String.eqb (filepath_Ext r) ""); [|done].
    split; [by apply Hne|]. apply Hcolon. unfold bytes; simpl.
    rewrite !not_elem_of_cons. split_and!; try done. apply not_elem_of_nil.
Qed.

End LocalFileFacts.

(** ** main.go *)

Section MainGo.
Import main_go.
Context `{GoStrings} `{DocsHost}.

Lemma foldl_insert_true (f : string → string) (l : list string)
    (m : gmap string bool) (k : string) :
  default false
    (foldl (λ (m : gmap string bool) x, <[f x := true]> m) m l !! k) = true
  ↔ k ∈ f <$> l ∨ default false (m !! k) = true.
Proof.
  revert m. induction l as [|x l IH]; intros m; simpl.
  - split; [by right|]. intros [Hin|?]; [|done]. by apply elem_of_nil in Hin.
  - rewrite IH, lookup_insert, elem_of_cons. case_decide; simpl.
    + subst k. tauto.
    + split; [intros [?|?]; auto|intros [[?|?]|?]; auto; congruence].
Qed.

(** X16. After [initAllowedLanguages], a language is allowed exactly when it
    is one of the comma-separated pieces of the list with the surrounding
    space trimmed; the empty list is fatal. *)
Theorem initAllowedLanguages_allows (langs : string) allowedLanguages :
  initAllowedLanguages langs = Some allowedLanguages →
  langs ≠ ""
  ∧ ∀ lang, isLanguageAllowed allowedLanguages lang = true
            ↔ lang ∈ strings_TrimSpace <$> strings_Split langs ",".
Proof.
  unfold initAllowedLanguages.
  destruct (String.eqb langs "") eqn:He; [done|]. intros [= <-].
  split; [by apply String.eqb_neq|]. intros lang; simpl.
  rewrite foldl_insert_true. rewrite lookup_empty; simpl.
  split; [by intros [?|?]|auto].
Qed.

Lemma SearchDoc_loop lowerQuery entries results :
  foldl (λ results entry,
           if entry_matches lowerQuery entry
           then results ++ [entry] else results) results entries
  = results ++ List.filter (entry_matches lowerQuery) entries.
Proof.
  revert results. induction entries as [|e entries IH]; intros results; simpl.
  - by rewrite app_nil_r.
  - rewrite IH. destruct (entry_matches lowerQuery e); [|done].
    by rewrite <-app_assoc.
Qed.

(** X17. When the index is fetched, [SearchDoc] returns the entries of the
    index whose lower-cased name or path contains the lower-cased query, in
    the order of the index: every result is such an entry and every such
    entry is a result. *)
Theorem SearchDoc_results (langSlug query : string) results :
  SearchDoc langSlug query = inl results →
  ∃ d, fetchIndex langSlug = inl d
       ∧ sublist results (Entries d)
       ∧ ∀ entry,
           entry ∈ results
           ↔ entry ∈ Entries d
             ∧ (strings_Contains (strings_ToLower (EntryName entry))
                                 (strings_ToLower query) = true
                ∨ strings_Contains (strings_ToLower (EntryPath entry))
                                   (strings_ToLower query) = true).
Proof.
  unfold SearchDoc. destruct (fetchIndex langSlug) as [d|err]; [|done].
  intros [= <-]. exists d. rewrite SearchDoc_loop; simpl.
  split; [done|]. split.
  - induction (Entries d) as [|e es IH]; simpl; [done|].
    destruct (entry_matches _ e); [by apply sublist_skip|].
    by apply sublist_cons.
  - intros entry. rewrite list_elem_of_In, filter_In, <-list_elem_of_In.
    unfold entry_matches. by rewrite orb_true_iff.
Qed.

(** X18. The empty query, when lower-casing leaves it empty, returns every
    entry of the index. *)
Theorem SearchDoc_empty_query (langSlug : string) d :
  strings_ToLower "" = "" →
  fetchIndex langSlug = inl d →
  SearchDoc langSlug "" = inl (Entries d).
Proof.
  intros Hlower Hfetch. unfold SearchDoc. rewrite Hfetch, SearchDoc_loop.
  simpl. f_equal. rewrite Hlower.
  induction (Entries d) as [|e es IH]; simpl; [done|].
  assert (entry_matches "" e = true) as ->; [|by rewrite IH].
  unfold entry_matches, strings_Contains.
  apply orb_true_iff. left. apply bool_decide_eq_true.
  destruct (strings_ToLower (EntryName e)); simpl; eauto.
Qed.

Lemma substring_0_length (n : nat) (s : string) :
  (n ≤ String.length s)%nat → String.length (substring 0 n s) = n.
Proof.
  revert s. induction n as [|n IH]; intros s Hn.
  - by destruct s.
  - destruct s as [|ch s]; simpl in *; [lia|]. rewrite IH; [done|lia].
Qed.

Lemma substring_0_prefix (n : nat) (s : string) :
  String.prefix (substring 0 n s) s = true.
Proof.
  revert s. induction n as [|n IH]; intros s.
  - by destruct s.
  - destruct s as [|ch s]; simpl; [done|].
    destruct (ascii_dec ch ch); [apply IH|done].
Qed.

Lemma first_500_cases (content : string) :
  (first_500 content = None ∧ (String.length content < 500)%nat)
  ∨ ∃ snippet, first_500 content = Some snippet
               ∧ (500 ≤ String.length content)%nat
               ∧ String.length snippet = 500%nat
               ∧ String.prefix snippet content = true.
Proof.
  unfold first_500.
  destruct (500 <=? String.length content)%nat eqn:Hlen.
  - apply Nat.leb_le in Hlen. right. eexists. split; [done|].
    split_and!; [done|by apply substring_0_length|apply substring_0_prefix].
  - apply Nat.leb_gt in Hlen. by left.
Qed.

(** X19. The [read] command prints the first 500 bytes of the page, and
    panics on the slice when the page is fetched and is shorter than 500
    bytes. *)
Theorem main_read_short_page_panics (readLang readPath : string) :
  (main_read readLang readPath = ReadPanic
   ↔ readLang ≠ "" ∧ readPath ≠ ""
     ∧ ∃ content, ReadDocContent readLang readPath = inl content
                  ∧ (String.length content < 500)%nat)
  ∧ ∀ snippet,
      main_read readLang readPath = ReadPrinted snippet →
      String.length snippet = 500%nat
      ∧ ∃ content, ReadDocContent readLang readPath = inl content
                   ∧ String.prefix snippet content = true.
Proof.
  unfold main_read.
  destruct (String.eqb readLang "") eqn:Hl; cbn [orb].
  { apply String.eqb_eq in Hl. split; [|intros ? [=]].
    split; [intros [=]|]. by intros []. }
  destruct (String.eqb readPath "") eqn:Hp.
  { apply String.eqb_eq in Hp. split; [|intros ? [=]].
    split; [intros [=]|]. by intros (_ & ? & _). }
  apply String.eqb_neq in Hl, Hp.
  destruct (ReadDocContent readLang readPath) as [content|err].
  2: { split; [|intros ? [=]]. split; [intros [=]|].
       by intros (_ & _ & ? & ? & _). }
  destruct (first_500_cases content)
    as [[-> Hshort]|(snippet & -> & Hlong & Hlen & Hpre)].
  - split; [|intros ? [=]]. split; [|done].
    intros _. split_and!; try done. by exists content.
  - split.
    + split; [intros [=]|]. intros (_ & _ & content' & [= <-] & ?). lia.
    + intros ? [= <-]. split; [done|]. by exists content.
Qed.

(** X20. A language that is not among the trimmed pieces of the list given
    to [initAllowedLanguages] is refused by both tools, before anything is
    fetched: the answer is the refusal, whatever the host would serve. *)
Theorem handlers_refuse_other_languages (langs lang : string)
    allowedLanguages (request : gmap string argument) (v : string) :
  initAllowedLanguages langs = Some allowedLanguages →
  lang ∉ strings_TrimSpace <$> strings_Split langs "," →
  request !! "lang" = Some (ArgString lang) →
  (request !! "query" = Some (ArgString v) →
   handleSearchDoc allowedLanguages request
   = ToolResultError (not_allowed_text lang))
  ∧ (request !! "path" = Some (ArgString v) →
     handleReadDocContent allowedLanguages request
     = ToolResultError (not_allowed_text lang)).
Proof.
  intros Hinit Hnot Hlang.
  assert (isLanguageAllowed allowedLanguages lang = false) as Hno.
  { unfold initAllowedLanguages in Hinit.
    destruct (String.eqb langs ""); [done|]. injection Hinit as <-.
    apply not_true_is_false. simpl. rewrite foldl_insert_true, lookup_empty.
    simpl. by intros [?|?]. }
  split; intros Harg.
  - unfold handleSearchDoc, RequireString. by rewrite Hlang, Harg, Hno.
  - unfold handleReadDocContent, RequireString. by rewrite Hlang, Harg, Hno.
Qed.

End MainGo.

Section IndexerMore.
Import indexer.
Context `{Bleve}.

(** X21. [SearchFuzzy] returns, best first, the first ten documents that
    match the fuzzy query, and all of them when at most ten match. *)
Theorem SearchFuzzy_first_ten_matches (i : bleve_Index) (query : string) paths :
  paged_search →
  SearchFuzzy i query = inl paths →
  paths = take 10 (matching i (bleve_NewFuzzyQuery query))
  ∧ ((length (matching i (bleve_NewFuzzyQuery query)) ≤ 10)%nat →
     paths = matching i (bleve_NewFuzzyQuery query)).
Proof.
  intros Hpaged Hsearch. unfold SearchFuzzy in Hsearch.
  destruct (index_Search i _) as [res|] eqn:Hres; [|done].
  injection Hsearch as <-. rewrite hit_paths_ID, (Hpaged _ _ _ Hres); simpl.
  split; [done|]. intros Hlen. by apply firstn_all2.
Qed.

End IndexerMore.

(** ** Runs to completion *)

Section Schedules.
Context `{World}.
Variable c : crawl.

Lemma insert_middle {A} (l k : list A) (x y : A) :
  <[length l := y]> (l ++ x :: k) = l ++ y :: k.
Proof.
  rewrite insert_app_r_alt by done. by rewrite Nat.sub_diag.
Qed.

Lemma int_add_0_1 : int_add 0 1 = 1.
Proof. reflexivity. Qed.

#[local] Opaque queue_cap int_add.

(** One step from a state written out field by field; [tac] rewrites with
    what decides the branch. *)
Ltac machine_step tac :=
  etrans;
  [apply run_step; unfold step, step_main, step_feeder, step_worker; simpl; tac;
   unfold set_pc, mu_Unlock, wg_Done, chan_send,
     with_workers, with_mu, with_wg, with_queue, with_main, with_visited,
     with_feeder, with_closed, with_log; simpl;
   try tac; reflexivity|].

(** The loop over the links passes a link that does not parse or has
    another host. *)
Lemma worker_passes i u d link rest v g q pf ws lg :
  ws !! i = Some {| currentURL := u; currentDepth := d;
                    w_pc := WLoop (link :: rest) |} →
  on_initial_host c link = false →
  run c [Worker i] (between_tasks v g q pf ws lg)
  = between_tasks v g q pf
      (<[i := {| currentURL := u; currentDepth := d; w_pc := WLoop rest |}]> ws)
      lg.
Proof.
  intros Hi Hon. unfold on_initial_host in Hon. unfold between_tasks.
  machine_step ltac:(rewrite Hi; simpl;
                     destruct (url_Parse link); [rewrite Hon|]).
  done.
Qed.

(** It passes a link that is marked: Lock, test, Unlock. *)
Lemma worker_skips i u d link rest v g q pf ws lg :
  ws !! i = Some {| currentURL := u; currentDepth := d;
                    w_pc := WLoop (link :: rest) |} →
  on_initial_host c link = true →
  default false (v !! link) = true →
  run c [Worker i; Worker i; Worker i] (between_tasks v g q pf ws lg)
  = between_tasks v g q pf
      (<[i := {| currentURL := u; currentDepth := d; w_pc := WLoop rest |}]> ws)
      lg.
Proof.
  intros Hi Hon Hvis. unfold on_initial_host in Hon. unfold between_tasks.
  assert (i < length ws)%nat as Hlt by (by eapply lookup_lt_Some).
  destruct (url_Parse link) as [parsedLink|] eqn:Hparse; [|done].
  machine_step ltac:(rewrite Hi; simpl; rewrite Hparse, Hon).
  machine_step ltac:(rewrite list_lookup_insert_eq by done; simpl;
                     unfold visited; simpl; rewrite Hvis).
  machine_step ltac:(rewrite list_lookup_insert_eq
                       by (by rewrite length_insert)).
  simpl. by rewrite !list_insert_insert_eq.
Qed.

(** It sends a link that is not marked to the empty channel: Lock, test,
    [wg.Add], send, Unlock. *)
Lemma worker_sends i u d link rest v g pf ws lg :
  ws !! i = Some {| currentURL := u; currentDepth := d;
                    w_pc := WLoop (link :: rest) |} →
  on_initial_host c link = true →
  default false (v !! link) = false →
  run c [Worker i; Worker i; Worker i; Worker i; Worker i]
    (between_tasks v g [] pf ws lg)
  = between_tasks v (S g) [{| url := link; depth := int_add d 1 |}] pf
      (<[i := {| currentURL := u; currentDepth := d; w_pc := WLoop rest |}]> ws)
      lg.
Proof.
  intros Hi Hon Hvis. unfold on_initial_host in Hon. unfold between_tasks.
  assert (i < length ws)%nat as Hlt by (by eapply lookup_lt_Some).
  destruct (url_Parse link) as [parsedLink|] eqn:Hparse; [|done].
  machine_step ltac:(rewrite Hi; simpl; rewrite Hparse, Hon).
  machine_step ltac:(rewrite list_lookup_insert_eq by done; simpl;
                     unfold visited; simpl; rewrite Hvis).
  machine_step ltac:(rewrite list_lookup_insert_eq
                       by (by rewrite length_insert)).
  machine_step ltac:(rewrite list_lookup_insert_eq
                       by (by rewrite !length_insert)).
  machine_step ltac:(rewrite list_lookup_insert_eq
                       by (by rewrite !length_insert)).
  simpl. by rewrite !list_insert_insert_eq.
Qed.

(** The goroutine leaves the loop when no link is left. *)
Lemma worker_leaves i u d v g q pf ws lg :
  ws !! i = Some {| currentURL := u; currentDepth := d; w_pc := WLoop [] |} →
  run c [Worker i] (between_tasks v g q pf ws lg)
  = between_tasks v g q pf
      (<[i := {| currentURL := u; currentDepth := d; w_pc := WDefer |}]> ws) lg.
Proof.
  intros Hi. unfold between_tasks. machine_step ltac:(rewrite Hi). done.
Qed.



(** The range loop claims a task whose URL is not marked, up to the test of
    the depth. *)
Lemma main_claims t v g pf ws lg :
  default false (v !! url t) = false →
  run c [Main; Main; Main; Main; Main] (between_tasks v g [t] pf ws lg)
  = {| visitedURLs := <[url t := true]> v; mu := false; wg := g;
       queue := []; closed := false; main := MDepth t; feeder := pf;
       workers := ws; log := lg; panicked := false |}.
Proof.
  intros Hvis. unfold between_tasks.
  machine_step idtac. machine_step idtac.
  machine_step ltac:(unfold visited; simpl; rewrite Hvis).
  machine_step idtac. machine_step idtac. done.
Qed.


(** A task within the depth bound gets its goroutine. *)
Lemma main_goes t v g pf ws lg :
  depth t ≤ maxDepth c →
  run c [Main]
    {| visitedURLs := v; mu := false; wg := g; queue := [];
       closed := false; main := MDepth t; feeder := pf;
       workers := ws; log := lg; panicked := false |}
  = between_tasks v g [] pf
      (ws ++ [{| currentURL := url t; currentDepth := depth t;
                 w_pc := WFetch |}]) lg.
Proof.
  intros Hdepth. apply Z.ltb_ge in Hdepth. unfold between_tasks.
  machine_step ltac:(rewrite Hdepth). done.
Qed.

(** The goroutine started last fetches its page. *)
Lemma worker_fetches u d v g q pf ws news lg :
  run c [Worker (length ws)]
    (between_tasks v g q pf
       (ws ++ {| currentURL := u; currentDepth := d; w_pc := WFetch |} :: news)
       lg)
  = between_tasks v g q pf
      (ws ++ {| currentURL := u; currentDepth := d;
                w_pc := (fetch_page c u d).2 |} :: news)
      (lg ++ (fetch_page c u d).1).
Proof.
  unfold between_tasks. destruct (fetch_page c u d) as [evs pc] eqn:Hfetch.
  machine_step ltac:(rewrite list_lookup_middle by done; simpl;
                     rewrite Hfetch).
  simpl. by rewrite insert_middle.
Qed.

(** The seeding goroutine sends the seed. *)
Lemma feeder_sends v0 :
  run c [Feeder] (init v0)
  = between_tasks v0 1 [{| url := DocURL (doc c); depth := 0 |}] FWait [] [].
Proof. unfold init, between_tasks. machine_step idtac. done. Qed.


#[local] Transparent queue_cap int_add.

End Schedules.

Section CompletesFacts.
Context `{World}.
Variable c : crawl.
Hypothesis Hmax : maxDepth c < 2 ^ 63 - 1.





End CompletesFacts.

Section Independent.
Context `{World}.
Variable c : crawl.

(** The loop over the links with the range loop taking every task as it is
    sent: every link on the initial host is marked, and every one that was
    not marked has a goroutine of its own, about to fetch. *)
Lemma links_spawn i u d links :
  int_add d 1 ≤ maxDepth c →
  ∀ v g pf ws lg,
    ws !! i = Some {| currentURL := u; currentDepth := d;
                      w_pc := WLoop links |} →
    ∃ sched v' news,
      run c sched (between_tasks v g [] pf ws lg)
      = between_tasks v' (g + length news) [] pf
          (<[i := {| currentURL := u; currentDepth := d; w_pc := WDefer |}]> ws
           ++ news) lg
      ∧ (∀ x, default false (v !! x) = true → default false (v' !! x) = true)
      ∧ (∀ x, x ∈ links → on_initial_host c x = true →
              default false (v' !! x) = true)
      ∧ (∀ x, x ∈ links → on_initial_host c x = true →
              default false (v !! x) = false →
              {| currentURL := x; currentDepth := int_add d 1;
                 w_pc := WFetch |} ∈ news)
      ∧ Forall (λ w, w_pc w = WFetch) news.
Proof.
  intros Hdepth.
  induction links as [|link rest IH]; intros v g pf ws lg Hi.
  - exists [Worker i], v, []. rewrite app_nil_r, Nat.add_0_r.
    split; [by apply worker_leaves|].
    split_and!; [done| | |constructor]; intros x Hx; by apply elem_of_nil in Hx.
  - assert (i < length ws)%nat as Hlt by (by eapply lookup_lt_Some).
    pose proof (list_lookup_insert_eq ws i
                  {| currentURL := u; currentDepth := d; w_pc := WLoop rest |}
                  Hlt) as Hi1.
    destruct (on_initial_host c link) eqn:Hon.
    2: { destruct (IH v g pf _ lg Hi1)
           as (sched & v' & news & Hrun & Hkeep & Hmark & Hnew & Hpc).
         exists ([Worker i] ++ sched), v', news.
         split; [|split_and!; [done| | |done]].
         - rewrite run_app, (worker_passes c i u d link rest) by done.
           by rewrite Hrun, list_insert_insert_eq.
         - intros x [->|Hx]%elem_of_cons Hx'; [congruence|auto].
         - intros x [->|Hx]%elem_of_cons Hx' ?; [congruence|auto]. }
    destruct (default false (v !! link)) eqn:Hvis.
    + destruct (IH v g pf _ lg Hi1)
        as (sched & v' & news & Hrun & Hkeep & Hmark & Hnew & Hpc).
      exists ([Worker i; Worker i; Worker i] ++ sched), v', news.
      split; [|split_and!; [done| | |done]].
      * rewrite run_app, (worker_skips c i u d link rest) by done.
        by rewrite Hrun, list_insert_insert_eq.
      * intros x [->|Hx]%elem_of_cons Hx'; auto.
      * intros x [->|Hx]%elem_of_cons Hx' ?; [congruence|auto].
    + set (w := {| currentURL := link; currentDepth := int_add d 1;
                   w_pc := WFetch |}).
      destruct (IH (<[link := true]> v) (S g) pf
                  (<[i := {| currentURL := u; currentDepth := d;
                             w_pc := WLoop rest |}]> ws ++ [w]) lg)
        as (sched & v' & news & Hrun & Hkeep & Hmark & Hnew & Hpc).
      { rewrite lookup_app_l by (by rewrite length_insert). done. }
      assert (default false (v' !! link) = true) as Hlink.
      { apply Hkeep. by rewrite lookup_insert_eq. }
      exists ([Worker i; Worker i; Worker i; Worker i; Worker i]
              ++ [Main; Main; Main; Main; Main] ++ [Main] ++ sched),
        v', (w :: news).
      split; [|split_and!].
      * rewrite run_app, (worker_sends c i u d link rest) by done.
        rewrite run_app, main_claims by done.
        rewrite run_app, main_goes by done. simpl url; simpl depth.
        fold w. rewrite Hrun.
        rewrite insert_app_l, list_insert_insert_eq, <-app_assoc
          by (by rewrite length_insert).
        cbn [app length]. by rewrite Nat.add_succ_r.
      * intros x Hx. apply Hkeep.
        destruct (decide (link = x)) as [->|Hne];
          [by rewrite lookup_insert_eq|by rewrite lookup_insert_ne].
      * intros x [->|Hx]%elem_of_cons Hx'; auto.
      * intros x Hx Hx' Hv.
        destruct (decide (x = link)) as [->|Hne]; [by left|].
        apply elem_of_cons in Hx as [?|Hx]; [done|].
        right. apply Hnew; [done|done|]. by rewrite lookup_insert_ne.
      * by constructor.
Qed.

(** Every goroutine that is about to fetch does so. *)
Lemma fetch_all news :
  Forall (λ w, w_pc w = WFetch) news →
  ∀ v g q pf ws lg,
    ∃ sched ws' lg',
      run c sched (between_tasks v g q pf (ws ++ news) lg)
      = between_tasks v g q pf ws' (lg ++ lg')
      ∧ ∀ w, w ∈ news → EvGet (currentURL w) (currentDepth w) ∈ lg'.
Proof.
  induction 1 as [|[u d pc] news Hpc _ IH]; intros v g q pf ws lg;
    simpl in *; subst.
  - exists [], ws, []. rewrite !app_nil_r. split; [done|].
    intros w Hw. by apply elem_of_nil in Hw.
  - destruct (IH v g q pf
                (ws ++ [{| currentURL := u; currentDepth := d;
                           w_pc := (fetch_page c u d).2 |}])
                (lg ++ (fetch_page c u d).1))
      as (sched & ws' & lg' & Hrun & Hget).
    rewrite <-app_assoc in Hrun. cbn [app] in Hrun.
    exists ([Worker (length ws)] ++ sched), ws', ((fetch_page c u d).1 ++ lg').
    split.
    + by rewrite run_app, worker_fetches, Hrun, app_assoc.
    + intros w [->|Hw]%elem_of_cons; apply elem_of_app.
      * left. apply fetch_page_get.
      * right. by apply Hget.
Qed.

(** Only the claim of the range loop changes [visitedURLs], and only at the
    URL string of the task it holds. *)
Lemma visited_changes_at_claim a s s' x :
  step c a s = Some s' → visited s' x ≠ visited s x →
  a = Main ∧ ∃ current, main s = MClaim current ∧ url current = x
                        ∧ visited s' x = true.
Proof.
  intros Hstep Hne. unfold step in Hstep.
  destruct (panicked s); [done|]. destruct a as [| |i].
  - destruct s as [v m g q cl pm pf ws lg pn]; unfold visited in *; simpl in *.
    unfold step_main, mu_Unlock, wg_Done, visited in Hstep; simpl in Hstep.
    destruct pm; simpl in *; repeat case_match; simplify_eq/=; try done.
    split; [done|]. exists current. split; [done|].
    destruct (decide (url current = x)) as [->|Hx].
    + by rewrite lookup_insert_eq.
    + by rewrite lookup_insert_ne in Hne.
  - destruct s as [v m g q cl pm pf ws lg pn]; unfold visited in *; simpl in *.
    unfold step_feeder, chan_send in Hstep; simpl in Hstep.
    destruct pf; simpl in *; repeat case_match; simplify_eq/=; done.
  - apply step_worker_frame in Hstep as (_ & _ & _ & _ & _ & Hvis & _).
    unfold visited in Hne. by rewrite Hvis in Hne.
Qed.

(** The seed page is fetched and its links are dispatched one by one. *)
Lemma seed_links_fetched v0 links evs :
  1 ≤ maxDepth c →
  default false (v0 !! DocURL (doc c)) = false →
  fetch_page c (DocURL (doc c)) 0 = (evs, WLoop links) →
  ∃ sched,
    panicked (run c sched (init v0)) = false
    ∧ ∀ u, u ∈ links → on_initial_host c u = true →
           default false (v0 !! u) = false → u ≠ DocURL (doc c) →
           visited (run c sched (init v0)) u = true
           ∧ EvGet u 1 ∈ log (run c sched (init v0)).
Proof.
  intros Hdepth Hseed Hfetch.
  set (seed := DocURL (doc c)) in *.
  destruct (links_spawn 0 seed 0 links ltac:(by rewrite int_add_0_1)
              (<[seed := true]> v0) 1%nat FWait [{| currentURL := seed; currentDepth := 0;
                  w_pc := WLoop links |}] evs
              eq_refl)
    as (sched1 & v' & news & Hrun1 & Hkeep & Hmark & Hnew & Hpc).
  destruct (fetch_all news Hpc v' (1 + length news)%nat [] FWait
              (<[0%nat := {| currentURL := seed; currentDepth := 0;
                             w_pc := WDefer |}]> [{| currentURL := seed; currentDepth := 0;
                  w_pc := WLoop links |}]) evs)
    as (sched2 & ws' & lg' & Hrun2 & Hget).
  exists ([Feeder] ++ [Main; Main; Main; Main; Main] ++ [Main] ++ [Worker 0]
          ++ sched1 ++ sched2).
  assert (run c ([Feeder] ++ [Main; Main; Main; Main; Main] ++ [Main]
                 ++ [Worker 0] ++ sched1 ++ sched2) (init v0)
          = between_tasks v' (1 + length news) [] FWait ws'
              (evs ++ lg')) as ->.
  { rewrite run_app, feeder_sends.
    rewrite run_app, main_claims by done.
    rewrite run_app, main_goes by (simpl; lia).
    rewrite run_app. simpl url; simpl depth.
    rewrite (worker_fetches c seed 0 _ _ _ _ [] []). fold seed.
    rewrite Hfetch. cbn [fst snd app length].
    by rewrite run_app, Hrun1, Hrun2. }
  split; [done|]. intros u Hu Hon Hv Hne. split.
  - unfold visited; simpl. by apply Hmark.
  - simpl. apply elem_of_app. right. rewrite <-int_add_0_1.
    apply (Hget {| currentURL := u; currentDepth := int_add 0 1;
                   w_pc := WFetch |}).
    apply Hnew; [done|done|]. by rewrite lookup_insert_ne.
Qed.

End Independent.

Section Returns.
Context `{World}.
Variable c : crawl.


End Returns.


(** C10. [visitedURLs] is keyed on the URL string as it is: the claim of the
    range loop is the only step that changes the map, and it changes it at
    the string of the task and nowhere else; the test of the range loop and
    the test of the loop over the links read it at the string of the task
    and at the link as [extractLinks] gave it.  So whatever strings the seed
    page links to on the initial host, each one that is not marked and is
    not the seed is claimed and fetched under its own string, under one and
    the same schedule, whether or not two of them are the same page. *)
Theorem visitedURLs_keyed_on_exact_string `{World} (c : crawl)
    v0 body parsedURL htmlDoc :
  (∀ a s s' x,
     step c a s = Some s' → visited s' x ≠ visited s x →
     a = Main ∧ ∃ current, main s = MClaim current ∧ url current = x
                           ∧ visited s' x = true)
  ∧ (∀ s current,
       panicked s = false → main s = MTest current →
       ∃ s', step c Main s = Some s'
             ∧ main s' = if visited s (url current) then MSkipUnlock
                         else MClaim current)
  ∧ (∀ s i w link rest,
       panicked s = false → workers s !! i = Some w →
       w_pc w = WTest link rest →
       ∃ s' w', step c (Worker i) s = Some s' ∧ workers s' !! i = Some w'
                ∧ w_pc w' = if visited s link then WUnlock rest
                            else WAdd link rest)
  ∧ (1 ≤ maxDepth c →
     default false (v0 !! DocURL (doc c)) = false →
     http_Get (DocURL (doc c)) = Response http_StatusOK body →
     url_Parse (DocURL (doc c)) = Some parsedURL →
     os_MkdirAll (filepath_Dir (local_file c parsedURL)) = false →
     ioutil_WriteFile (local_file c parsedURL) body = false →
     html_Parse body = Some htmlDoc →
     ∃ sched,
       let s := run c sched (init v0) in
       panicked s = false
       ∧ ∀ u, u ∈ extractLinks htmlDoc (DocURL (doc c)) →
              on_initial_host c u = true →
              default false (v0 !! u) = false → u ≠ DocURL (doc c) →
              visited s u = true ∧ EvGet u 1 ∈ log s).
Proof.
  split_and!.
  - apply visited_changes_at_claim.
  - intros s current Hp Hm. unfold step, step_main. rewrite Hp, Hm.
    destruct (visited s (url current)); eauto.
  - intros s i w link rest Hp Hi Hpc. unfold step, step_worker.
    rewrite Hp, Hi, Hpc.
    assert (i < length (workers s))%nat as Hlt by (by eapply lookup_lt_Some).
    destruct (visited s link); simpl; eexists _, _;
      (split; [done|]); unfold set_pc; simpl;
      by rewrite list_lookup_insert_eq.
  - intros Hdepth Hseed Hget Hparse Hmk Hwr Hhtml.
    eapply seed_links_fetched; [done|done|].
    unfold fetch_page. rewrite Hget; simpl. by rewrite Hparse, Hmk, Hwr, Hhtml.
Qed.

(** ** Witnesses *)

Section MoreWitnesses.
Import testnet examples more_examples.

(** Witness of X3: the crawl of [two_hosts] has returned; the channel is
    closed and nothing is left. *)
Lemma closed_when_all_done_witness :
  let w := world two_hosts in
  let c := example_crawl 1 in
  let s := @run net_url w c (round_robin 40 3) (init ∅) in
  main s = MReturn
  ∧ closed s = true
  ∧ wg s = 0%nat ∧ queue s = [] ∧ main_task (main s) = None
  ∧ Forall exited (workers s).
Proof.
  intros w c s.
  assert (main s = MReturn) as Hret by (vm_compute; reflexivity).
  pose proof (@closed_when_all_done net_url w c ∅ (round_robin 40 3)) as Hw.
  destruct Hw as [Hdone Hclosed].
  specialize (Hclosed Hret). specialize (Hdone Hclosed).
  split; [exact Hret|]. split; [exact Hclosed|exact Hdone].
Defined.

(** Witness of X4: the seed, once marked, is still marked after the crawl. *)
Lemma visitedURLs_append_only_witness :
  let w := world two_hosts in
  let c := example_crawl 1 in
  let s := @run net_url w c seed_dispatched (init ∅) in
  visited s "http://example.test/" = true
  ∧ visited (@run net_url w c (round_robin 40 3) s) "http://example.test/" = true.
Proof.
  intros w c s.
  assert (visited s "http://example.test/" = true) as Hv
    by (vm_compute; reflexivity).
  split; [exact Hv|].
  exact (@visitedURLs_append_only net_url w c s (round_robin 40 3)
           "http://example.test/" Hv).
Defined.

(** Witness of X5. *)
Lemma marked_seed_witness :
  let w := world two_hosts in
  let c := example_crawl 1 in
  default false (seed_marked !! DocURL (doc c)) = true
  ∧ let s := @run net_url w c (round_robin 40 3) (init seed_marked) in
    workers s = [] ∧ log s = [].
Proof.
  intros w c.
  assert (default false (seed_marked !! DocURL (doc c)) = true) as Hseed
    by (vm_compute; reflexivity).
  split; [exact Hseed|].
  exact (@marked_seed_fetches_nothing net_url w c seed_marked
           (round_robin 40 3) Hseed).
Defined.

(** Witness of X6. *)
Lemma negative_maxDepth_witness :
  let w := world two_hosts in
  let c := example_crawl (-1) in
  maxDepth c < 0
  ∧ let s := @run net_url w c (round_robin 40 3) (init ∅) in
    workers s = [] ∧ log s = [].
Proof.
  intros w c.
  assert (maxDepth c < 0) as Hneg by (vm_compute; reflexivity).
  split; [exact Hneg|].
  exact (@negative_maxDepth_fetches_nothing net_url w c ∅
           (round_robin 40 3) Hneg).
Defined.

(** Witness of X7. *)
Lemma depths_in_range_witness :
  let w := world two_hosts in
  let c := example_crawl 1 in
  maxDepth c < 2 ^ 63 - 1
  ∧ let s := @run net_url w c first_page_done (init ∅) in
    Forall (λ t, 0 ≤ depth t ≤ Z.max 0 (maxDepth c + 1)) (queue s)
    ∧ (∀ t, main_task (main s) = Some t →
            0 ≤ depth t ≤ Z.max 0 (maxDepth c + 1))
    ∧ Forall (λ w, 0 ≤ currentDepth w ≤ maxDepth c) (workers s).
Proof.
  intros w c.
  assert (maxDepth c < 2 ^ 63 - 1) as Hmax by (vm_compute; reflexivity).
  split; [exact Hmax|].
  exact (@depths_in_range net_url w c ∅ first_page_done Hmax).
Defined.

(** Witness of X8: the seed answers 404. *)
Lemma failed_fetch_witness :
  let w := world nothing_there in
  let c := example_crawl 1 in
  let s := @run net_url w c seed_dispatched (init ∅) in
  let w0 := {| currentURL := "http://example.test/"; currentDepth := 0;
               w_pc := WFetch |} in
  workers s !! 0%nat = Some w0 ∧ w_pc w0 = WFetch
  ∧ (∀ body, http_Get (currentURL w0) ≠ Response http_StatusOK body)
  ∧ let s' := @run net_url w c [Worker 0; Worker 0] s in
    workers s' = <[0%nat := {| currentURL := currentURL w0;
                               currentDepth := currentDepth w0;
                               w_pc := WExit |}]> (workers s)
    ∧ log s' = log s ++ [EvGet (currentURL w0) (currentDepth w0)]
    ∧ queue s' = queue s ∧ wg s = S (wg s')
    ∧ visitedURLs s' = visitedURLs s.
Proof.
  intros w c s w0.
  assert (workers s !! 0%nat = Some w0) as Hi by (vm_compute; reflexivity).
  assert (∀ body, http_Get (currentURL w0) ≠ Response http_StatusOK body)
    as Hget by (intros body Heq; vm_compute in Heq; discriminate Heq).
  split_and!; [exact Hi|reflexivity|exact Hget|].
  exact (@failed_fetch_ends_task net_url w c ∅ seed_dispatched 0%nat w0
           Hi eq_refl Hget).
Defined.

(** Witness of X9. *)
Lemma marked_on_initial_host_witness :
  let w := world two_hosts in
  let c := example_crawl 1 in
  @seed_parsed net_url c
  ∧ let s := @run net_url w c (round_robin 40 3) (init ∅) in
    (∀ u, visited s u = true →
          default false ((∅ : gmap string bool) !! u) = true
          ∨ @in_domain net_url c u)
    ∧ (∀ u, u ∈ (fetched (log s)).*1 → visited s u = true).
Proof.
  intros w c. split; [exact (example_seed_parsed 1)|].
  exact (@marked_on_initial_host net_url w c ∅ (round_robin 40 3)
           (example_seed_parsed 1)).
Defined.

(** Witness of X10: the page [/] of [two_hosts] is in the index; it was
    fetched and saved. *)
Lemma indexed_pages_witness :
  let w := world two_hosts in
  let c := example_crawl 1 in
  let s := @run net_url w c (round_robin 40 3) (init ∅) in
  EvIndexed "/docs/example/1/index.html" "Aother" ∈ log s
  ∧ ∃ u d body,
      EvGet u d ∈ log s
      ∧ @http_Get net_url w u = Response http_StatusOK body
      ∧ EvSaved "/docs/example/1/index.html" body ∈ log s.
Proof.
  intros w c s.
  assert (EvIndexed "/docs/example/1/index.html" "Aother" ∈ log s) as Hin.
  { apply list_elem_of_In. vm_compute. auto. }
  split; [exact Hin|].
  pose proof (@indexed_pages_were_saved net_url w c ∅ (round_robin 40 3)
                "/docs/example/1/index.html" "Aother") as Hw.
  specialize (Hw Hin).
  destruct Hw as (u & d & body & _ & _ & Hget & Hbody & _ & _ & Hsaved & _).
  exists u, d, body. split; [exact Hget|]. split; [exact Hbody|exact Hsaved].
Defined.

(** Witness of X11: the page [/] of [two_hosts] has two links; the one on
    the initial host is sent. *)
Lemma link_loop_witness :
  let w := world two_hosts in
  let c := example_crawl 1 in
  let s := @run net_url w c seed_fetched (init ∅) in
  let links := ["http://example.test/a"; "http://other.test/"] in
  let w0 := {| currentURL := "http://example.test/"; currentDepth := 0;
               w_pc := WLoop links |} in
  workers s !! 0%nat = Some w0 ∧ w_pc w0 = WLoop links
  ∧ mu s = false ∧ closed s = false ∧ panicked s = false
  ∧ (length (queue s) + length (@followed net_url c s links) ≤ queue_cap)%nat
  ∧ ∃ n, let s' := @run net_url w c (replicate n (Worker 0)) s in
         queue s' = queue s
                    ++ link_tasks (currentDepth w0) (@followed net_url c s links)
         ∧ wg s' = (wg s + length (@followed net_url c s links))%nat
         ∧ workers s' = <[0%nat := {| currentURL := currentURL w0;
                                      currentDepth := currentDepth w0;
                                      w_pc := WDefer |}]> (workers s)
         ∧ visitedURLs s' = visitedURLs s ∧ mu s' = false ∧ log s' = log s.
Proof.
  intros w c s links w0.
  assert (workers s !! 0%nat = Some w0) as Hi by (vm_compute; reflexivity).
  assert (mu s = false) as Hmu by (vm_compute; reflexivity).
  assert (closed s = false) as Hcl by (vm_compute; reflexivity).
  assert (panicked s = false) as Hpn by (vm_compute; reflexivity).
  assert (length (queue s) + length (@followed net_url c s links)
          ≤ queue_cap)%nat as Hcap.
  { apply Nat.leb_le. vm_compute. reflexivity. }
  split_and!; [exact Hi|reflexivity|exact Hmu|exact Hcl|exact Hpn|exact Hcap|].
  exact (@link_loop_sends_unmarked_links net_url w c s 0%nat w0 links
           Hi eq_refl Hmu Hcl Hpn Hcap).
Defined.

(** Witness of X12. *)
Lemma extractLinks_only_link_attributes_witness :
  let page := document [anchor "/a" "A"; anchor "http://other.test/" "other"] in
  "http://example.test/a" ∈ extractLinks page "http://example.test/"
  ∧ ∃ m a, m ∈ nodes page ∧ a ∈ html.Attr m ∧ link_attribute m a
           ∧ "http://example.test/a"
             = resolveURL "http://example.test/" (html.Val a)
           ∧ "http://example.test/a" ≠ "".
Proof.
  intros page.
  assert ("http://example.test/a" ∈ extractLinks page "http://example.test/")
    as Hin by (apply list_elem_of_In; vm_compute; auto).
  split; [exact Hin|].
  exact (@extractLinks_only_link_attributes net_url page
           "http://example.test/" "http://example.test/a" Hin).
Defined.

(** Witness of X13. *)
Lemma extractLinks_unparsable_base_witness :
  let page := document [anchor "/a" "A"; anchor "http://other.test/" "other"] in
  url_Parse "://example.test" = None
  ∧ extractLinks page "://example.test" = [].
Proof.
  intros page.
  assert (url_Parse "://example.test" = None) as Hbase by reflexivity.
  split; [exact Hbase|].
  exact (@extractLinks_unparsable_base net_url page "://example.test" Hbase).
Defined.

End MoreWitnesses.

Section MainGoWitnesses.
Import main_go.

(** Witness of X16. *)
Lemma initAllowedLanguages_witness :
  let allowed :=
    MadeMap (<["css" := true]> (<["html" := true]> (∅ : gmap string bool))) in
  @initAllowedLanguages ascii_strings "html, css" = Some allowed
  ∧ "html, css" ≠ ""
  ∧ ∀ lang, isLanguageAllowed allowed lang = true
            ↔ lang ∈ @strings_TrimSpace ascii_strings
                       <$> strings_Split "html, css" ",".
Proof.
  intros allowed.
  assert (@initAllowedLanguages ascii_strings "html, css" = Some allowed)
    as Hinit by (vm_compute; reflexivity).
  split; [exact Hinit|].
  exact (@initAllowedLanguages_allows ascii_strings "html, css" allowed Hinit).
Defined.

(** Witness of X17: the query [A] finds the entries with an [a]. *)
Lemma SearchDoc_results_witness :
  let results := take 2 (Entries html_index) in
  @SearchDoc ascii_strings one_index "html" "A" = inl results
  ∧ ∃ d, @fetchIndex one_index "html" = inl d
         ∧ sublist results (Entries d)
         ∧ ∀ entry,
             entry ∈ results
             ↔ entry ∈ Entries d
               ∧ (strings_Contains
                    (@strings_ToLower ascii_strings (EntryName entry))
                    (@strings_ToLower ascii_strings "A") = true
                  ∨ strings_Contains
                      (@strings_ToLower ascii_strings (EntryPath entry))
                      (@strings_ToLower ascii_strings "A") = true).
Proof.
  intros results.
  assert (@SearchDoc ascii_strings one_index "html" "A" = inl results)
    as Hs by (vm_compute; reflexivity).
  split; [exact Hs|].
  exact (@SearchDoc_results ascii_strings one_index "html" "A" results Hs).
Defined.

(** Witness of X18. *)
Lemma SearchDoc_empty_query_witness :
  @strings_ToLower ascii_strings "" = ""
  ∧ @fetchIndex one_index "html" = inl html_index
  ∧ @SearchDoc ascii_strings one_index "html" "" = inl (Entries html_index).
Proof.
  assert (@fetchIndex one_index "html" = inl html_index) as Hf
    by (vm_compute; reflexivity).
  split; [reflexivity|]. split; [exact Hf|].
  exact (@SearchDoc_empty_query ascii_strings one_index "html" html_index
           eq_refl Hf).
Defined.

(** Witness of X19: the page [element/a] of [one_index] is 10 bytes long,
    [read] panics. *)
Lemma main_read_short_page_witness :
  @ReadDocContent one_index "html" "element/a" = inl "<h1>a</h1>"
  ∧ @main_read one_index "html" "element/a" = ReadPanic.
Proof.
  assert (@ReadDocContent one_index "html" "element/a" = inl "<h1>a</h1>")
    as Hc by (vm_compute; reflexivity).
  split; [exact Hc|].
  apply (proj1 (@main_read_short_page_panics one_index "html" "element/a")).
  split; [discriminate|]. split; [discriminate|].
  exists "<h1>a</h1>". split; [exact Hc|simpl; lia].
Defined.

(** Witness of X20: [python] is not served when the list is [html, css]. *)
Lemma handlers_refuse_witness :
  let allowed :=
    MadeMap (<["css" := true]> (<["html" := true]> (∅ : gmap string bool))) in
  let request : gmap string argument :=
    <["lang" := ArgString "python"]>
      (<["query" := ArgString "list"]> (<["path" := ArgString "list"]> ∅)) in
  @initAllowedLanguages ascii_strings "html, css" = Some allowed
  ∧ ("python" ∉ (@strings_TrimSpace ascii_strings
                   <$> strings_Split "html, css" ","))
  ∧ request !! "lang" = Some (ArgString "python")
  ∧ request !! "query" = Some (ArgString "list")
  ∧ request !! "path" = Some (ArgString "list")
  ∧ @handleSearchDoc ascii_strings one_index allowed request
    = ToolResultError (not_allowed_text "python")
  ∧ @handleReadDocContent one_index allowed request
    = ToolResultError (not_allowed_text "python").
Proof.
  intros allowed request.
  assert (@initAllowedLanguages ascii_strings "html, css" = Some allowed)
    as Hinit by (vm_compute; reflexivity).
  assert ("python" ∉ (@strings_TrimSpace ascii_strings
                        <$> strings_Split "html, css" ",")) as Hnot.
  { intros Hin. apply list_elem_of_In in Hin. vm_compute in Hin.
    destruct Hin as [Hin|[Hin|[]]]; discriminate Hin. }
  assert (request !! "lang" = Some (ArgString "python")) as Hlang
    by (vm_compute; reflexivity).
  assert (request !! "query" = Some (ArgString "list")) as Hq
    by (vm_compute; reflexivity).
  assert (request !! "path" = Some (ArgString "list")) as Hp
    by (vm_compute; reflexivity).
  destruct (@handlers_refuse_other_languages ascii_strings one_index
              "html, css" "python" allowed request "list" Hinit Hnot Hlang)
    as [Hsearch Hread].
  split_and!; [exact Hinit|exact Hnot|exact Hlang|exact Hq|exact Hp
              |exact (Hsearch Hq)|exact (Hread Hp)].
Defined.

End MainGoWitnesses.

Section IndexerMoreWitnesses.
Import indexer.

(** Witness of X21. *)
Lemma SearchFuzzy_first_ten_witness :
  let i := index_of eleven_foxes in
  let paths := take 10 (fst <$> eleven_foxes) in
  @paged_search list_bleve
  ∧ @SearchFuzzy list_bleve i "fox" = inl paths
  ∧ paths = take 10 (@matching list_bleve i "fox")
  ∧ ((length (@matching list_bleve i "fox") ≤ 10)%nat →
     paths = @matching list_bleve i "fox").
Proof.
  intros i paths.
  assert (@SearchFuzzy list_bleve i "fox" = inl paths) as Hsearch
    by (vm_compute; reflexivity).
  split; [exact list_bleve_paged_search|]. split; [exact Hsearch|].
  exact (@SearchFuzzy_first_ten_matches list_bleve i "fox" paths
           list_bleve_paged_search Hsearch).
Defined.

End IndexerMoreWitnesses.

Section RevisedWitnesses.
Import testnet examples more_examples.


(** Witness of C10: on [same_page_twice] the seed links to [/a] and to
    [/a#x]; the two strings are marked and fetched one by one, and both
    fetches are answered with the same body. *)
Lemma visitedURLs_exact_string_witness :
  let w := world same_page_twice in
  let c := example_crawl 1 in
  let body := anchors_body [("/a", "A"); ("/a#x", "A, x")] in
  let page := document [anchor "/a" "A"; anchor "/a#x" "A, x"] in
  1 ≤ maxDepth c
  ∧ default false ((∅ : gmap string bool) !! DocURL (doc c)) = false
  ∧ @http_Get net_url w (DocURL (doc c)) = Response http_StatusOK body
  ∧ @html_Parse net_url w body = Some page
  ∧ @extractLinks net_url page (DocURL (doc c))
    = ["http://example.test/a"; "http://example.test/a#x"]
  ∧ @http_Get net_url w "http://example.test/a"
    = @http_Get net_url w "http://example.test/a#x"
  ∧ ∃ sched,
      let s := @run net_url w c sched (init ∅) in
      visited s "http://example.test/a" = true
      ∧ visited s "http://example.test/a#x" = true
      ∧ EvGet "http://example.test/a" 1 ∈ log s
      ∧ EvGet "http://example.test/a#x" 1 ∈ log s.
Proof.
  intros w c body page.
  assert (1 ≤ maxDepth c) as Hdepth by (vm_compute; discriminate).
  assert (default false ((∅ : gmap string bool) !! DocURL (doc c)) = false)
    as Hseed by reflexivity.
  assert (@http_Get net_url w (DocURL (doc c)) = Response http_StatusOK body)
    as Hget by (vm_compute; reflexivity).
  assert (@html_Parse net_url w body = Some page) as Hhtml
    by (vm_compute; reflexivity).
  assert (@extractLinks net_url page (DocURL (doc c))
          = ["http://example.test/a"; "http://example.test/a#x"]) as Hlinks
    by (vm_compute; reflexivity).
  pose proof (@visitedURLs_keyed_on_exact_string net_url w c ∅ body
                {| Scheme := "http"; Host := "example.test"; Path := "/";
                   Fragment := "" |} page) as Hthm.
  destruct Hthm as (_ & _ & _ & Hex).
  destruct (Hex Hdepth Hseed Hget eq_refl eq_refl eq_refl Hhtml)
    as (sched & _ & Hall).
  split_and!; [exact Hdepth|exact Hseed|exact Hget|exact Hhtml|exact Hlinks
              |vm_compute; reflexivity|].
  exists sched.
  destruct (Hall "http://example.test/a") as [Hva Hfa];
    [rewrite Hlinks; by left|vm_compute; reflexivity|reflexivity
    |discriminate|].
  destruct (Hall "http://example.test/a#x") as [Hvx Hfx];
    [rewrite Hlinks; right; by left|vm_compute; reflexivity|reflexivity
    |discriminate|].
  split_and!; [exact Hva|exact Hvx|exact Hfa|exact Hfx].
Defined.

End RevisedWitnesses.
